(** * The Python parser of the code translator: normalized trees, diagnostics
    and entity extraction.

    The development embeds [src/core/parser/python-parser.ts].  The raw
    concrete syntax tree of the grammar engine is an immutable tree; the
    normalized [ParsedNode] objects are mutable JavaScript objects that point
    at one another ([children] downwards, [parent] upwards), so they live in
    an explicit object store and are named by references. *)

From Stdlib Require Import List Arith Lia NArith.
From stdpp Require Import base option list strings pretty relations.

Set Warnings "-register-all".

Open Scope string_scope.
Open Scope list_scope.

(** ** Data model *)

(** [Position]: zero-based row and column. *)
Record Position := mkPosition { row : N; column : N }.

(** The concrete syntax tree handed over by the grammar engine.  [child i]
    may answer [null] (the source guards every access with [if (child)]), so
    a node owns a sequence of child slots. *)
Module Raw.

Inductive SyntaxNode := Node {
  type : string;
  startPosition : Position;
  endPosition : Position;
  text : string;
  hasError : bool;
  slots : list (option SyntaxNode) }.

Definition childCount (node : SyntaxNode) : nat := length (slots node).

Definition child (node : SyntaxNode) (i : nat) : option SyntaxNode :=
  mjoin (slots node !! i).

(** The children that are really there, in source order. *)
Definition children (node : SyntaxNode) : list SyntaxNode :=
  omap id (slots node).

(** Number of nodes and pre-order enumeration of a raw tree. *)
Fixpoint size (node : SyntaxNode) : nat :=
  S ((fix sizes (l : list (option SyntaxNode)) : nat :=
        match l with
        | [] => 0
        | None :: l' => sizes l'
        | Some c :: l' => size c + sizes l'
        end) (slots node)).

Fixpoint preorder (node : SyntaxNode) : list SyntaxNode :=
  node :: (fix walk (l : list (option SyntaxNode)) : list SyntaxNode :=
             match l with
             | [] => []
             | None :: l' => walk l'
             | Some c :: l' => preorder c ++ walk l'
             end) (slots node).

Fixpoint height (node : SyntaxNode) : nat :=
  S ((fix heights (l : list (option SyntaxNode)) : nat :=
        match l with
        | [] => 0
        | None :: l' => heights l'
        | Some c :: l' => Nat.max (height c) (heights l')
        end) (slots node)).

End Raw.

(** References to [ParsedNode] objects. *)
Abbreviation ref := nat.

(** [ParsedNode] of [types/index.ts]; [parent] is the optional field. *)
Record ParsedNode := mkParsedNode {
  type : string;
  startPosition : Position;
  endPosition : Position;
  text : string;
  children : list ref;
  parent : option ref }.

(** The object store: objects in allocation order, a reference is the index
    of its object. *)
Abbreviation Heap := (list ParsedNode).

Definition alloc (o : ParsedNode) (h : Heap) : ref * Heap :=
  (length h, h ++ [o]).

(** Reading through a reference.  Every reference the program holds points
    at a live object; [undefinedNode] stands for the read that never happens
    (see [convertNode_closed]). *)
Definition undefinedNode : ParsedNode :=
  mkParsedNode "" (mkPosition 0 0) (mkPosition 0 0) "" [] None.

Definition deref (h : Heap) (r : ref) : ParsedNode :=
  default undefinedNode (h !! r).

(** [child.parent = p]: an in-place update of one field. *)
Definition with_parent (p : option ref) (o : ParsedNode) : ParsedNode :=
  mkParsedNode (type o) (startPosition o) (endPosition o) (text o)
               (children o) p.

Definition set_parent (r : ref) (p : option ref) (h : Heap) : Heap :=
  alter (with_parent p) r h.

Inductive Severity := error | warning.

Record ParseError := mkParseError {
  message : string;
  position : Position;
  severity : Severity }.

Inductive SupportedLanguage :=
  PYTHON | JAVASCRIPT | TYPESCRIPT | JAVA | CSHARP | CPP | GO.

Record ParseResult := mkParseResult {
  ast : ref;
  language : SupportedLanguage;
  errors : list ParseError;
  source : string }.

(** ** The node normalizer *)

(** [convertNode]: the children are converted first, in slot order, each
    getting its [parent] cleared; then the node's own object is created and
    every child's [parent] is pointed at it. *)
Fixpoint convertNode (node : Raw.SyntaxNode) (source : string) (h : Heap)
  : ref * Heap :=
  let startPosition := mkPosition (row (Raw.startPosition node))
                                  (column (Raw.startPosition node)) in
  let endPosition := mkPosition (row (Raw.endPosition node))
                                (column (Raw.endPosition node)) in
  let '(children, h1) :=
    (fix loop (l : list (option Raw.SyntaxNode)) (children : list ref)
         (h : Heap) : list ref * Heap :=
       match l with
       | [] => (children, h)
       | None :: l' => loop l' children h
       | Some child :: l' =>
           let '(childNode, h') := convertNode child source h in
           loop l' (children ++ [childNode]) (set_parent childNode None h')
       end) (Raw.slots node) [] h in
  let '(parsedNode, h2) :=
    alloc (mkParsedNode (Raw.type node) startPosition endPosition
                        (Raw.text node) children None) h1 in
  (parsedNode,
   foldl (fun h' child => set_parent child (Some parsedNode) h') h2 children).

(** The [for] loop of [convertNode] on its own. *)
Fixpoint convertChildren (l : list (option Raw.SyntaxNode)) (source : string)
    (children : list ref) (h : Heap) : list ref * Heap :=
  match l with
  | [] => (children, h)
  | None :: l' => convertChildren l' source children h
  | Some child :: l' =>
      let '(childNode, h') := convertNode child source h in
      convertChildren l' source (children ++ [childNode])
                      (set_parent childNode None h')
  end.

(** ** The error collector *)

Definition syntaxErrorAt (node : Raw.SyntaxNode) : ParseError :=
  mkParseError
    ("Syntax error at " +:+ pretty (row (Raw.startPosition node)) +:+ ":"
       +:+ pretty (column (Raw.startPosition node)))
    (mkPosition (row (Raw.startPosition node))
                (column (Raw.startPosition node)))
    error.

(** [collectErrors] pushes onto the caller's [errors] array; the array is
    threaded through. *)
Fixpoint collectErrors (node : Raw.SyntaxNode) (source : string)
    (errors : list ParseError) : list ParseError :=
  if Raw.hasError node then
    let errors1 :=
      if String.eqb (Raw.type node) "ERROR"
      then errors ++ [syntaxErrorAt node] else errors in
    (fix loop (l : list (option Raw.SyntaxNode)) (errors : list ParseError)
       : list ParseError :=
       match l with
       | [] => errors
       | None :: l' => loop l' errors
       | Some child :: l' => loop l' (collectErrors child source errors)
       end) (Raw.slots node) errors1
  else errors.

(** ** [parse] *)

Section Parser.

(** [this.parser.parse(sourceCode).rootNode]: the grammar engine is a
    collaborator of the parser class. *)
Variable grammar : string -> Raw.SyntaxNode.

Definition parse (sourceCode : string) (h : Heap) : ParseResult * Heap :=
  let rootNode := grammar sourceCode in
  let errors := [] in
  let '(ast, h') := convertNode rootNode sourceCode h in
  let errors :=
    if Raw.hasError rootNode
    then collectErrors rootNode sourceCode errors else errors in
  (mkParseResult ast PYTHON errors sourceCode, h').

End Parser.

(** ** Entity extraction *)

Module PythonParameter.
Record t := mk {
  name : string;
  type : option string;
  defaultValue : option string }.
End PythonParameter.

Module PythonFunction.
Record t := mk {
  name : string;
  parameters : list PythonParameter.t;
  body : string;
  startLine : N;
  endLine : N;
  isAsync : bool;
  decorators : list string }.
End PythonFunction.

Module PythonClass.
Record t := mk {
  name : string;
  superclasses : list string;
  methods : list PythonFunction.t;
  startLine : N;
  endLine : N;
  decorators : list string }.
End PythonClass.

Module ImportName.
Record t := mk { name : string; alias : option string }.
End ImportName.

Module PythonImport.
Inductive kind := import | from.
Record t := mk {
  type : kind;
  module : string;
  names : list ImportName.t;
  alias : option string;
  startLine : N }.
End PythonImport.

(** [x?.text]: the text behind an optional reference. *)
Definition textOf (h : Heap) (o : option ref) : option string :=
  (fun r => text (deref h r)) <$> o.

(** [s || d] on an optional string: the empty string is falsy. *)
Definition orElse (s : option string) (d : string) : string :=
  match s with
  | Some t => if String.eqb t "" then d else t
  | None => d
  end.

(** [s || null] and [s || undefined]. *)
Definition orAbsent (s : option string) : option string :=
  match s with
  | Some t => if String.eqb t "" then None else Some t
  | None => None
  end.

(** [node.children.find(child => child.type === ty)]. *)
Definition findChild (h : Heap) (node : ref) (ty : string) : option ref :=
  List.find (fun child => String.eqb (type (deref h child)) ty)
            (children (deref h node)).

(** A loop body run over a list, threading the accumulator; it stops at the
    first step that does not return. *)
Fixpoint forEach {A S : Type} (f : A -> S -> option S) (l : list A) (s : S)
  : option S :=
  match l with
  | [] => Some s
  | x :: l' => s' ← f x s; forEach f l' s'
  end.

(** [traverse] of [findNodesByType]: the closure pushes onto [results]. The
    recursion follows references through the store, so it takes fuel: one
    unit per nesting level. *)
Fixpoint traverse (fuel : nat) (h : Heap) (nodeType : string) (node : ref)
    (results : list ref) : option (list ref) :=
  match fuel with
  | 0 => None
  | S fuel' =>
      let results1 :=
        if String.eqb (type (deref h node)) nodeType
        then results ++ [node] else results in
      forEach (traverse fuel' h nodeType) (children (deref h node)) results1
  end.

Definition findNodesByType (fuel : nat) (h : Heap) (ast : ref)
    (nodeType : string) : option (list ref) :=
  traverse fuel h nodeType ast [].

(** Pre-order enumeration of the normalized tree below a reference. *)
Fixpoint preorder (fuel : nat) (h : Heap) (node : ref) : option (list ref) :=
  match fuel with
  | 0 => None
  | S fuel' =>
      rss ← mapM (preorder fuel' h) (children (deref h node));
      Some (node :: concat rss)
  end.

Definition extractParameters (h : Heap) (parametersNode : option ref)
  : list PythonParameter.t :=
  match parametersNode with
  | None => []
  | Some parametersNode =>
      let paramNodes :=
        List.filter
          (fun child =>
             String.eqb (type (deref h child)) "identifier"
             || String.eqb (type (deref h child)) "default_parameter"
             || String.eqb (type (deref h child)) "typed_parameter")
          (children (deref h parametersNode)) in
      foldl
        (fun params node =>
           if String.eqb (type (deref h node)) "identifier" then
             params ++ [PythonParameter.mk (text (deref h node)) None None]
           else if String.eqb (type (deref h node)) "default_parameter" then
             let nameNode := findChild h node "identifier" in
             (* children[length - 1]; on an empty array the index is -1 and
                the read is undefined *)
             let valueNode :=
               children (deref h node)
                 !! (length (children (deref h node)) - 1) in
             params ++ [PythonParameter.mk
                          (orElse (textOf h nameNode) "unknown")
                          None
                          (orAbsent (textOf h valueNode))]
           else if String.eqb (type (deref h node)) "typed_parameter" then
             let nameNode := findChild h node "identifier" in
             let typeNode := findChild h node "type" in
             params ++ [PythonParameter.mk
                          (orElse (textOf h nameNode) "unknown")
                          (orAbsent (textOf h typeNode))
                          None]
           else params)
        [] paramNodes
  end.

(** The [while] loop of [extractDecorators]; one unit of fuel per test of
    the loop condition. *)
Fixpoint ascend (fuel : nat) (h : Heap) (current : option ref)
    (decorators : list string) : option (list string) :=
  match fuel with
  | 0 => None
  | S fuel' =>
      match current with
      | Some cur =>
          if String.eqb (type (deref h cur)) "decorated_definition" then
            let decoratorNodes :=
              List.filter
                (fun child => String.eqb (type (deref h child)) "decorator")
                (children (deref h cur)) in
            ascend fuel' h (parent (deref h cur))
                   (decorators
                      ++ ((fun d => text (deref h d)) <$> decoratorNodes))
          else Some decorators
      | None => Some decorators
      end
  end.

Definition extractDecorators (fuel : nat) (h : Heap) (node : ref)
  : option (list string) :=
  ascend fuel h (parent (deref h node)) [].

Definition extractSuperclasses (h : Heap) (superclassNode : option ref)
  : list string :=
  match superclassNode with
  | None => []
  | Some superclassNode =>
      (fun child => text (deref h child)) <$>
        (List.filter
           (fun child =>
              String.eqb (type (deref h child)) "identifier"
              || String.eqb (type (deref h child)) "attribute")
           (children (deref h superclassNode)))
  end.

Definition extractImportNames (h : Heap) (importListNode : option ref)
  : list ImportName.t :=
  match importListNode with
  | None => []
  | Some importListNode =>
      foldl
        (fun names child =>
           if String.eqb (type (deref h child)) "identifier" then
             names ++ [ImportName.mk (text (deref h child)) None]
           else if String.eqb (type (deref h child)) "aliased_import" then
             let nameNode := children (deref h child) !! 0 in
             let aliasNode := children (deref h child) !! 2 in
             names ++ [ImportName.mk (orElse (textOf h nameNode) "")
                                     (orAbsent (textOf h aliasNode))]
           else names)
        [] (children (deref h importListNode))
  end.

(** The callback of [extractFunctions]. *)
Definition functionEntity (fuel : nat) (h : Heap) (node : ref)
  : option PythonFunction.t :=
  let nameNode := findChild h node "identifier" in
  let parametersNode := findChild h node "parameters" in
  let bodyNode := findChild h node "block" in
  decorators ← extractDecorators fuel h node;
  Some (PythonFunction.mk
          (orElse (textOf h nameNode) "unknown")
          (extractParameters h parametersNode)
          (orElse (textOf h bodyNode) "")
          (row (startPosition (deref h node)))
          (row (endPosition (deref h node)))
          (existsb (fun child => String.eqb (text (deref h child)) "async")
                   (children (deref h node)))
          decorators).

Definition extractFunctions (fuel : nat) (h : Heap) (ast : ref)
  : option (list PythonFunction.t) :=
  functionNodes ← findNodesByType fuel h ast "function_definition";
  mapM (functionEntity fuel h) functionNodes.

(** The callback of [extractMethods]. *)
Definition methodEntity (fuel : nat) (h : Heap) (node : ref)
  : option PythonFunction.t :=
  let nameNode := findChild h node "identifier" in
  let parametersNode := findChild h node "parameters" in
  decorators ← extractDecorators fuel h node;
  Some (PythonFunction.mk
          (orElse (textOf h nameNode) "unknown")
          (extractParameters h parametersNode)
          (text (deref h node))
          (row (startPosition (deref h node)))
          (row (endPosition (deref h node)))
          (existsb (fun child => String.eqb (text (deref h child)) "async")
                   (children (deref h node)))
          decorators).

Definition extractMethods (fuel : nat) (h : Heap) (bodyNode : option ref)
  : option (list PythonFunction.t) :=
  match bodyNode with
  | None => Some []
  | Some bodyNode =>
      functionNodes ← findNodesByType fuel h bodyNode "function_definition";
      mapM (methodEntity fuel h) functionNodes
  end.

(** The callback of [extractClasses]. *)
Definition classEntity (fuel : nat) (h : Heap) (node : ref)
  : option PythonClass.t :=
  let nameNode := findChild h node "identifier" in
  let bodyNode := findChild h node "block" in
  let superclassNode := findChild h node "argument_list" in
  methods ← extractMethods fuel h bodyNode;
  decorators ← extractDecorators fuel h node;
  Some (PythonClass.mk
          (orElse (textOf h nameNode) "unknown")
          (extractSuperclasses h superclassNode)
          methods
          (row (startPosition (deref h node)))
          (row (endPosition (deref h node)))
          decorators).

Definition extractClasses (fuel : nat) (h : Heap) (ast : ref)
  : option (list PythonClass.t) :=
  classNodes ← findNodesByType fuel h ast "class_definition";
  mapM (classEntity fuel h) classNodes.

(** The callback of [extractImports]. *)
Definition importEntity (h : Heap) (node : ref) : PythonImport.t :=
  let isFromImport :=
    String.eqb (type (deref h node)) "import_from_statement" in
  if isFromImport then
    let moduleNode :=
      List.find
        (fun child =>
           String.eqb (type (deref h child)) "dotted_name"
           || String.eqb (type (deref h child)) "relative_import")
        (children (deref h node)) in
    let importListNode := findChild h node "import_list" in
    PythonImport.mk PythonImport.from
      (orElse (textOf h moduleNode) "")
      (extractImportNames h importListNode)
      None
      (row (startPosition (deref h node)))
  else
    let importListNode := findChild h node "import_list" in
    let names := extractImportNames h importListNode in
    PythonImport.mk PythonImport.import
      (orElse (ImportName.name <$> names !! 0) "")
      names
      (orAbsent (names !! 0 ≫= ImportName.alias))
      (row (startPosition (deref h node))).

Definition extractImports (fuel : nat) (h : Heap) (ast : ref)
  : option (list PythonImport.t) :=
  direct ← findNodesByType fuel h ast "import_statement";
  fromNodes ← findNodesByType fuel h ast "import_from_statement";
  Some (importEntity h <$> (direct ++ fromNodes)).

(** ** Fixtures: raw trees of small sources *)

Module Fixtures.

(** A raw node spanning columns [c1..c2] of row [r]. *)
Definition node (ty txt : string) (r c1 c2 : N)
    (kids : list Raw.SyntaxNode) : Raw.SyntaxNode :=
  Raw.Node ty (mkPosition r c1) (mkPosition r c2) txt false (Some <$> kids).

Definition tok (ty : string) (r c1 c2 : N) : Raw.SyntaxNode :=
  node ty ty r c1 c2 [].

Definition ident (txt : string) (r c1 c2 : N) : Raw.SyntaxNode :=
  node "identifier" txt r c1 c2 [].

(** A raw node that is flagged as containing a syntax error. *)
Definition flagged (ty txt : string) (r c1 c2 : N)
    (kids : list Raw.SyntaxNode) : Raw.SyntaxNode :=
  Raw.Node ty (mkPosition r c1) (mkPosition r c2) txt true (Some <$> kids).

(** [def f(:]: the parameter list is never closed.  The grammar engine
    repairs the input by supplying the closing parenthesis as a zero-width
    MISSING token of kind [)], and flags that token and its ancestors
    (parameters, function definition, module); the body is the empty block
    at the end of the input.  No node has kind ERROR. *)
Definition missing_paren_source : string := "def f(:".

Definition missing_paren : Raw.SyntaxNode :=
  flagged "module" "def f(:" 0 0 7
    [flagged "function_definition" "def f(:" 0 0 7
       [tok "def" 0 0 3;
        ident "f" 0 4 5;
        flagged "parameters" "(" 0 5 6
          [tok "(" 0 5 6; flagged ")" "" 0 6 6 []];
        tok ":" 0 6 7;
        node "block" "" 0 7 7 []]].

(** A grammar engine as far as the source [def f(:] goes: it answers that
    source with [missing_paren]; what it answers elsewhere (here an empty
    module) plays no role. *)
Definition engine_def_f (sourceCode : string) : Raw.SyntaxNode :=
  if String.eqb sourceCode missing_paren_source then missing_paren
  else node "module" sourceCode 0 0 0 [].

(** [x = = 1]: an ERROR node next to well-formed siblings. *)
Definition broken : Raw.SyntaxNode :=
  flagged "module" "x = = 1" 0 0 7
    [flagged "expression_statement" "x = = 1" 0 0 7
       [flagged "assignment" "x = = 1" 0 0 7
          [ident "x" 0 0 1;
           tok "=" 0 2 3;
           flagged "ERROR" "=" 0 4 5 [tok "=" 0 4 5];
           node "integer" "1" 0 6 7 []]]].

(** A class with one method:
<<
class A:
def m(self):
  pass
>> *)
Definition newline : string := String (Ascii.ascii_of_nat 10) "".

Definition method_text : string :=
  "def m(self):" +:+ newline +:+ "    pass".

Definition method_def : Raw.SyntaxNode :=
  Raw.Node "function_definition" (mkPosition 1 2) (mkPosition 2 8)
    method_text false
    (Some <$>
       [tok "def" 1 2 5;
        ident "m" 1 6 7;
        node "parameters" "(self)" 1 7 13
          [tok "(" 1 7 8; ident "self" 1 8 12; tok ")" 1 12 13];
        tok ":" 1 13 14;
        node "block" "pass" 2 4 8
          [node "pass_statement" "pass" 2 4 8 [tok "pass" 2 4 8]]]).

Definition class_body : Raw.SyntaxNode :=
  Raw.Node "block" (mkPosition 1 2) (mkPosition 2 8) method_text false
    [Some method_def].

Definition class_module : Raw.SyntaxNode :=
  Raw.Node "module" (mkPosition 0 0) (mkPosition 2 8)
    ("class A:" +:+ newline +:+ "  " +:+ method_text) false
    [Some (Raw.Node "class_definition" (mkPosition 0 0) (mkPosition 2 8)
             ("class A:" +:+ newline +:+ "  " +:+ method_text)
             false
             (Some <$> [tok "class" 0 0 5; ident "A" 0 6 7; tok ":" 0 7 8;
                        class_body]))].

(** A from-import followed by a direct import:
<<
from pkg import a as b, c
import one, two
>>
    The imported names are immediate children of the statement nodes, each
    a dotted name or an aliased import around one; the grammar has no node
    of kind "import_list". *)
Definition from_import : Raw.SyntaxNode :=
  node "import_from_statement" "from pkg import a as b, c" 0 0 25
    [tok "from" 0 0 4;
     node "dotted_name" "pkg" 0 5 8 [ident "pkg" 0 5 8];
     tok "import" 0 9 15;
     node "aliased_import" "a as b" 0 16 22
       [node "dotted_name" "a" 0 16 17 [ident "a" 0 16 17];
        tok "as" 0 18 20;
        ident "b" 0 21 22];
     tok "," 0 22 23;
     node "dotted_name" "c" 0 24 25 [ident "c" 0 24 25]].

(** [import one, two] on row [r]. *)
Definition import_statement_at (r : N) : Raw.SyntaxNode :=
  node "import_statement" "import one, two" r 0 15
    [tok "import" r 0 6;
     node "dotted_name" "one" r 7 10 [ident "one" r 7 10];
     tok "," r 10 11;
     node "dotted_name" "two" r 12 15 [ident "two" r 12 15]].

Definition direct_import : Raw.SyntaxNode := import_statement_at 1.

Definition imports_module : Raw.SyntaxNode :=
  Raw.Node "module" (mkPosition 0 0) (mkPosition 1 15)
    ("from pkg import a as b, c" +:+ newline +:+ "import one, two")
    false [Some from_import; Some direct_import].

(** The one-line source [import one, two]. *)
Definition import_one_two_source : string := "import one, two".

Definition import_one_two : Raw.SyntaxNode :=
  node "module" "import one, two" 0 0 15 [import_statement_at 0].

(** A definition below two nested wrapper layers. *)
Definition wrapped : Raw.SyntaxNode :=
  node "module" "@outer @inner def f(): pass" 0 0 27
    [node "decorated_definition" "@outer @inner def f(): pass" 0 0 27
       [node "decorator" "@outer" 0 0 6 [];
        node "decorated_definition" "@inner def f(): pass" 0 7 27
          [node "decorator" "@inner" 0 7 13 [];
           node "function_definition" "def f(): pass" 0 14 27
             [tok "def" 0 14 17;
              ident "f" 0 18 19;
              node "parameters" "()" 0 19 21 [];
              tok ":" 0 21 22;
              node "block" "pass" 0 23 27 []]]]].

(** [def f(a, x=5, y: int, z: int = 3): pass] *)
Definition params : Raw.SyntaxNode :=
  node "parameters" "(a, x=5, y: int, z: int = 3)" 0 5 33
    [tok "(" 0 5 6;
     ident "a" 0 6 7;
     tok "," 0 7 8;
     node "default_parameter" "x=5" 0 9 12
       [ident "x" 0 9 10; tok "=" 0 10 11; node "integer" "5" 0 11 12 []];
     tok "," 0 12 13;
     node "typed_parameter" "y: int" 0 14 20
       [ident "y" 0 14 15; tok ":" 0 15 16;
        node "type" "int" 0 17 20 [ident "int" 0 17 20]];
     tok "," 0 20 21;
     node "typed_default_parameter" "z: int = 3" 0 22 32
       [ident "z" 0 22 23; tok ":" 0 23 24;
        node "type" "int" 0 25 28 [ident "int" 0 25 28];
        tok "=" 0 29 30; node "integer" "3" 0 31 32 []];
     tok ")" 0 32 33].

(** A store whose only object is a wrapper that is its own [parent]; no
    call of [convertNode] produces it. *)
Definition cyclic : Heap :=
  [mkParsedNode "decorated_definition" (mkPosition 0 0) (mkPosition 0 0)
                "" [] (Some 0)].

(** The stores [convertNode] builds from the fixtures, starting from the
    empty store. *)
Definition wrapped_heap : Heap := (convertNode wrapped "" []).2.
Definition imports_heap : Heap := (convertNode imports_module "" []).2.
Definition params_heap : Heap := (convertNode params "" []).2.

(** Pre-order of the objects of [imports_heap]; the root is object 20, the
    from-import object 12 and the direct import object 19. *)
Definition imports_preorder : list ref :=
  [20; 12; 0; 2; 1; 3; 8; 5; 4; 6; 7; 9; 11; 10; 19; 13; 15; 14; 16; 18; 17].

(** The entities [extractImports] returns for the two statements: neither
    statement has a child of kind "import_list", so [names] is empty and the
    direct import has the empty string as [module]. *)
Definition direct_entity : PythonImport.t :=
  PythonImport.mk PythonImport.import "" [] None 1.

Definition from_entity : PythonImport.t :=
  PythonImport.mk PythonImport.from "pkg" [] None 0.

(** The store built from [class_module]; object 14 is the block of the
    class and object 13 the method. *)
Definition class_heap : Heap := (convertNode class_module "" []).2.

Definition method_entity : PythonFunction.t :=
  PythonFunction.mk "m" [PythonParameter.mk "self" None None] "pass" 1 2
                    false [].

(** The part of a file name from its last dot on, empty when there is no
    dot: what [path.extname] answers for a plain file name with a stem. *)
Fixpoint fromLastDot (s : string) : string :=
  match s with
  | "" => ""
  | String c s' =>
      match fromLastDot s' with
      | "" => if Ascii.eqb c (Ascii.ascii_of_nat 46) then s else ""
      | ext => ext
      end
  end.

End Fixtures.

(** ** Shape of a store region built by the normalizer *)

(** Fields other than [parent] agree. *)
Definition same_record (o o' : ParsedNode) : Prop :=
  with_parent None o = with_parent None o'.

(** [h'] extends [h] and differs on the objects of [h] in [parent] fields at
    most. *)
Definition agree (h h' : Heap) : Prop :=
  length h <= length h' /\
  forall a, a < length h -> same_record (deref h a) (deref h' a).

(** The object at [r] and everything below it mirror the raw tree [n]. *)
Inductive Repr (h : Heap) : ref -> Raw.SyntaxNode -> Prop :=
| Repr_node r n :
    r < length h ->
    type (deref h r) = Raw.type n ->
    startPosition (deref h r) = Raw.startPosition n ->
    endPosition (deref h r) = Raw.endPosition n ->
    text (deref h r) = Raw.text n ->
    Forall2 (Repr h) (children (deref h r)) (Raw.children n) ->
    Repr h r n.

(** The objects from address [b] on form a forest with the given roots:
    child lists point down to smaller addresses whose [parent] points back,
    every object that is not a root has its [parent] set and is listed among
    that parent's children, and roots have no [parent]. *)
Record Forest (b : nat) (h : Heap) (roots : list ref) : Prop := mkForest {
  F_down : forall a c, b <= a -> c ∈ children (deref h a) ->
           b <= c < a /\ parent (deref h c) = Some a;
  F_up : forall a, b <= a < length h -> a ∉ roots ->
         exists p, parent (deref h a) = Some p /\ a < p < length h /\
                   a ∈ children (deref h p);
  F_roots : forall a, a ∈ roots ->
            b <= a < length h /\ parent (deref h a) = None }.

(** The ancestor relation: the transitive closure of "[p] is the [parent]
    of [c]". *)
Definition parentOf (h : Heap) (c p : ref) : Prop :=
  parent (deref h c) = Some p.

Definition ancestorOf (h : Heap) : ref -> ref -> Prop := tc (parentOf h).

(** Kind, span and text of the object at [r] are those of the raw node. *)
Definition mirrors (h : Heap) (r : ref) (m : Raw.SyntaxNode) : Prop :=
  type (deref h r) = Raw.type m /\
  startPosition (deref h r) = Raw.startPosition m /\
  endPosition (deref h r) = Raw.endPosition m /\
  text (deref h r) = Raw.text m.

(** What one call of [convertNode] on store [h0] leaves behind. *)
Definition built (n : Raw.SyntaxNode) (h0 : Heap) (res : ref * Heap) : Prop :=
  length res.2 = length h0 + Raw.size n /\
  res.1 + 1 = length res.2 /\
  (forall a, a < length h0 -> deref res.2 a = deref h0 a) /\
  Forest (length h0) res.2 [res.1] /\
  Repr res.2 res.1 n.

(** *** The error collector, seen from outside *)

Definition isErrorKind (node : Raw.SyntaxNode) : bool :=
  String.eqb (Raw.type node) "ERROR".

(** The nodes whose body the collector enters, in the order it enters them:
    a flagged node, then what it enters below each child; nothing at or
    below a node that is not flagged. *)
Fixpoint flaggedNodes (node : Raw.SyntaxNode) : list Raw.SyntaxNode :=
  if Raw.hasError node then
    node :: (fix walk (l : list (option Raw.SyntaxNode))
               : list Raw.SyntaxNode :=
               match l with
               | [] => []
               | None :: l' => walk l'
               | Some c :: l' => flaggedNodes c ++ walk l'
               end) (Raw.slots node)
  else [].

(** The flag discipline of the grammar engine: a node of the ERROR kind is
    flagged, and so is every node with a flagged child. *)
Fixpoint flagsSound (node : Raw.SyntaxNode) : bool :=
  implb (isErrorKind node) (Raw.hasError node)
  && (fix all (l : list (option Raw.SyntaxNode)) : bool :=
        match l with
        | [] => true
        | None :: l' => all l'
        | Some c :: l' =>
            implb (Raw.hasError c) (Raw.hasError node)
            && flagsSound c && all l'
        end) (Raw.slots node).

(** *** Parameter shapes *)

(** The entry a child of the parameter list stands for, if any: one of the
    three shapes, or nothing. *)
Definition parameterShape (h : Heap) (child : ref)
  : option PythonParameter.t :=
  let ty := type (deref h child) in
  if String.eqb ty "identifier" then
    Some (PythonParameter.mk (text (deref h child)) None None)
  else if String.eqb ty "default_parameter" then
    Some (PythonParameter.mk
            (orElse (textOf h (findChild h child "identifier")) "unknown")
            None
            (orAbsent (textOf h (last (children (deref h child))))))
  else if String.eqb ty "typed_parameter" then
    Some (PythonParameter.mk
            (orElse (textOf h (findChild h child "identifier")) "unknown")
            (orAbsent (textOf h (findChild h child "type")))
            None)
  else None.

(** *** Decorator wrappers *)

(** The decorator texts found at one wrapper level. *)
Definition decoratorTexts (h : Heap) (wrapper : ref) : list string :=
  (fun d => text (deref h d)) <$>
    (List.filter (fun child => String.eqb (type (deref h child)) "decorator")
                 (children (deref h wrapper))).

(** [wrapperChain h node ps]: [ps] are the consecutive ancestors of [node]
    of the wrapper kind, innermost first; the chain stops at the first
    ancestor of another kind or where [parent] is absent. *)
Inductive wrapperChain (h : Heap) : ref -> list ref -> Prop :=
| chain_root node :
    parent (deref h node) = None -> wrapperChain h node []
| chain_stop node p :
    parent (deref h node) = Some p ->
    String.eqb (type (deref h p)) "decorated_definition" = false ->
    wrapperChain h node []
| chain_step node p ps :
    parent (deref h node) = Some p ->
    String.eqb (type (deref h p)) "decorated_definition" = true ->
    wrapperChain h p ps ->
    wrapperChain h node (p :: ps).

(** *** Import statements *)

Definition isDirectImport (h : Heap) (node : ref) : bool :=
  String.eqb (type (deref h node)) "import_statement".

Definition isFromImport (h : Heap) (node : ref) : bool :=
  String.eqb (type (deref h node)) "import_from_statement".

(** [PythonFunction] with the [body] field replaced. *)
Definition with_body (b : string) (f : PythonFunction.t) : PythonFunction.t :=
  PythonFunction.mk (PythonFunction.name f) (PythonFunction.parameters f) b
                    (PythonFunction.startLine f) (PythonFunction.endLine f)
                    (PythonFunction.isAsync f) (PythonFunction.decorators f).

(** *** The concrete syntax tree as the extractor reads it *)

(** [node.children.find(child => child.type === ty)] on the raw tree. *)
Definition rawFindChild (m : Raw.SyntaxNode) (ty : string)
  : option Raw.SyntaxNode :=
  List.find (fun c => String.eqb (Raw.type c) ty) (Raw.children m).

Definition rawIsAsync (m : Raw.SyntaxNode) : bool :=
  existsb (fun c => String.eqb (Raw.text c) "async") (Raw.children m).

(** The raw nodes of one kind, in pre-order. *)
Definition rawNodesByType (m : Raw.SyntaxNode) (ty : string)
  : list Raw.SyntaxNode :=
  List.filter (fun c => String.eqb (Raw.type c) ty) (Raw.preorder m).

Definition rawParameterShape (c : Raw.SyntaxNode)
  : option PythonParameter.t :=
  if String.eqb (Raw.type c) "identifier" then
    Some (PythonParameter.mk (Raw.text c) None None)
  else if String.eqb (Raw.type c) "default_parameter" then
    Some (PythonParameter.mk
            (orElse (Raw.text <$> rawFindChild c "identifier") "unknown")
            None
            (orAbsent (Raw.text <$> last (Raw.children c))))
  else if String.eqb (Raw.type c) "typed_parameter" then
    Some (PythonParameter.mk
            (orElse (Raw.text <$> rawFindChild c "identifier") "unknown")
            (orAbsent (Raw.text <$> rawFindChild c "type"))
            None)
  else None.

Definition rawParameters (parametersNode : option Raw.SyntaxNode)
  : list PythonParameter.t :=
  match parametersNode with
  | None => []
  | Some p => omap rawParameterShape (Raw.children p)
  end.

Definition rawSuperclasses (m : Raw.SyntaxNode) : list string :=
  match rawFindChild m "argument_list" with
  | None => []
  | Some a =>
      Raw.text <$>
        List.filter
          (fun c => String.eqb (Raw.type c) "identifier"
                    || String.eqb (Raw.type c) "attribute")
          (Raw.children a)
  end.

(** The function definitions at or below the block of a class. *)
Definition rawMethods (m : Raw.SyntaxNode) : list Raw.SyntaxNode :=
  match rawFindChild m "block" with
  | None => []
  | Some b => rawNodesByType b "function_definition"
  end.

(** What a function entity says, read off the raw node of the
    definition. *)
Definition functionMirrors (f : PythonFunction.t) (m : Raw.SyntaxNode)
  : Prop :=
  PythonFunction.name f
    = orElse (Raw.text <$> rawFindChild m "identifier") "unknown" /\
  PythonFunction.parameters f = rawParameters (rawFindChild m "parameters") /\
  PythonFunction.body f = orElse (Raw.text <$> rawFindChild m "block") "" /\
  PythonFunction.startLine f = row (Raw.startPosition m) /\
  PythonFunction.endLine f = row (Raw.endPosition m) /\
  PythonFunction.isAsync f = rawIsAsync m.

(** The same for an entry of [methods]: its [body] is the text of the whole
    definition. *)
Definition methodMirrors (f : PythonFunction.t) (m : Raw.SyntaxNode)
  : Prop :=
  PythonFunction.name f
    = orElse (Raw.text <$> rawFindChild m "identifier") "unknown" /\
  PythonFunction.parameters f = rawParameters (rawFindChild m "parameters") /\
  PythonFunction.body f = Raw.text m /\
  PythonFunction.startLine f = row (Raw.startPosition m) /\
  PythonFunction.endLine f = row (Raw.endPosition m) /\
  PythonFunction.isAsync f = rawIsAsync m.

Definition classMirrors (c : PythonClass.t) (m : Raw.SyntaxNode) : Prop :=
  PythonClass.name c
    = orElse (Raw.text <$> rawFindChild m "identifier") "unknown" /\
  PythonClass.superclasses c = rawSuperclasses m /\
  Forall2 methodMirrors (PythonClass.methods c) (rawMethods m) /\
  PythonClass.startLine c = row (Raw.startPosition m) /\
  PythonClass.endLine c = row (Raw.endPosition m).

(** The entry a child of an import list stands for, if any. *)
Definition importNameShape (h : Heap) (child : ref) : option ImportName.t :=
  if String.eqb (type (deref h child)) "identifier" then
    Some (ImportName.mk (text (deref h child)) None)
  else if String.eqb (type (deref h child)) "aliased_import" then
    Some (ImportName.mk
            (default "" (textOf h (children (deref h child) !! 0)))
            (orAbsent (textOf h (children (deref h child) !! 2))))
  else None.

(** *** Decorators, read off the raw tree *)

Definition rawDecoratorTexts (m : Raw.SyntaxNode) : list string :=
  Raw.text <$>
    List.filter (fun c => String.eqb (Raw.type c) "decorator")
                (Raw.children m).

(** The decorators that reach the children of [m], given those that reach
    [m]: a wrapper passes on its own decorators and then those it received,
    any other node passes on nothing. *)
Definition rawInherited (m : Raw.SyntaxNode) (ds : list string)
  : list string :=
  if String.eqb (Raw.type m) "decorated_definition"
  then rawDecoratorTexts m ++ ds else [].

(** The raw nodes in pre-order, each with the decorators that reach it from
    its run of wrapper ancestors, innermost first. *)
Fixpoint rawWithDecorators (m : Raw.SyntaxNode) (ds : list string)
  : list (Raw.SyntaxNode * list string) :=
  (m, ds) ::
  (fix walk (l : list (option Raw.SyntaxNode))
     : list (Raw.SyntaxNode * list string) :=
     match l with
     | [] => []
     | None :: l' => walk l'
     | Some c :: l' => rawWithDecorators c (rawInherited m ds) ++ walk l'
     end) (Raw.slots m).

Definition rawDecorated (m : Raw.SyntaxNode) (ty : string)
  : list (Raw.SyntaxNode * list string) :=
  List.filter (fun md => String.eqb (Raw.type (fst md)) ty)
              (rawWithDecorators m []).

(** The object [y] stands for the raw node of [md] and its wrapper chain
    carries the decorators of [md]. *)
Definition Decorated (h : Heap) (y : ref)
    (md : Raw.SyntaxNode * list string) : Prop :=
  Repr h y (fst md) /\
  exists ps, wrapperChain h y ps /\
             concat (decoratorTexts h <$> ps) = snd md.

(** The decorators of the entries of [methods], read off the raw class. *)
Definition rawMethodDecorators (m : Raw.SyntaxNode) : list (list string) :=
  match rawFindChild m "block" with
  | None => []
  | Some b => snd <$> rawDecorated b "function_definition"
  end.

(** The entries of an import list and an import entity, read off the raw
    tree. *)
Definition rawImportNameShape (c : Raw.SyntaxNode) : option ImportName.t :=
  if String.eqb (Raw.type c) "identifier" then
    Some (ImportName.mk (Raw.text c) None)
  else if String.eqb (Raw.type c) "aliased_import" then
    Some (ImportName.mk
            (default "" (Raw.text <$> Raw.children c !! 0))
            (orAbsent (Raw.text <$> Raw.children c !! 2)))
  else None.

Definition rawImportNames (importList : option Raw.SyntaxNode)
  : list ImportName.t :=
  match importList with
  | None => []
  | Some l => omap rawImportNameShape (Raw.children l)
  end.

Definition importMirrors (e : PythonImport.t) (m : Raw.SyntaxNode) : Prop :=
  PythonImport.names e = rawImportNames (rawFindChild m "import_list") /\
  PythonImport.startLine e = row (Raw.startPosition m) /\
  if String.eqb (Raw.type m) "import_from_statement" then
    PythonImport.type e = PythonImport.from /\
    PythonImport.module e =
      default ""
        (Raw.text <$>
           List.find
             (fun c => String.eqb (Raw.type c) "dotted_name"
                       || String.eqb (Raw.type c) "relative_import")
             (Raw.children m)) /\
    PythonImport.alias e = None
  else
    PythonImport.type e = PythonImport.import /\
    PythonImport.module e =
      default "" (ImportName.name <$> head (PythonImport.names e)) /\
    PythonImport.alias e = head (PythonImport.names e) ≫= ImportName.alias.

(** ** Language detection ([utils/language-detector.ts]) *)

Inductive LanguageFeature :=
  CLASSES | INTERFACES | GENERICS | ASYNC_AWAIT | LAMBDAS | DECORATORS
| TYPE_ANNOTATIONS | MODULES | NAMESPACES.

Module LanguageInfo.
Record style := mkStyle {
  line : string;
  blockStart : option string;
  blockEnd : option string }.
Record t := mk {
  name : string;
  extensions : list string;
  treeSitterGrammar : string;
  mimeType : string;
  commentStyle : style;
  features : list LanguageFeature }.
End LanguageInfo.

(** The string value of each member of the [SupportedLanguage] enum. *)
Definition languageTag (language : SupportedLanguage) : string :=
  match language with
  | PYTHON => "python"
  | JAVASCRIPT => "javascript"
  | TYPESCRIPT => "typescript"
  | JAVA => "java"
  | CSHARP => "csharp"
  | CPP => "cpp"
  | GO => "go"
  end.

(** [Object.values(SupportedLanguage)], which is also the key order of the
    tables below. *)
Definition languages : list SupportedLanguage :=
  [PYTHON; JAVASCRIPT; TYPESCRIPT; JAVA; CSHARP; CPP; GO].

(** The characters of a triple double quote. *)
Definition tripleQuote : string :=
  let q := Ascii.ascii_of_nat 34 in String q (String q (String q "")).

Definition slashStar : LanguageInfo.style :=
  LanguageInfo.mkStyle "//" (Some "/*") (Some "*/").

Definition LANGUAGE_MAP (language : SupportedLanguage) : LanguageInfo.t :=
  match language with
  | PYTHON =>
      LanguageInfo.mk "Python" [".py"; ".pyw"; ".pyi"] "python"
        "text/x-python"
        (LanguageInfo.mkStyle "#" (Some tripleQuote) (Some tripleQuote))
        [CLASSES; DECORATORS; LAMBDAS; ASYNC_AWAIT; TYPE_ANNOTATIONS; MODULES]
  | JAVASCRIPT =>
      LanguageInfo.mk "JavaScript" [".js"; ".mjs"; ".cjs"; ".jsx"]
        "javascript" "text/javascript" slashStar
        [CLASSES; ASYNC_AWAIT; LAMBDAS; MODULES]
  | TYPESCRIPT =>
      LanguageInfo.mk "TypeScript" [".ts"; ".tsx"; ".d.ts"] "typescript"
        "text/typescript" slashStar
        [CLASSES; INTERFACES; GENERICS; DECORATORS; TYPE_ANNOTATIONS; MODULES]
  | JAVA =>
      LanguageInfo.mk "Java" [".java"] "java" "text/x-java-source" slashStar
        [CLASSES; INTERFACES; GENERICS; LAMBDAS; MODULES]
  | CSHARP =>
      LanguageInfo.mk "C#" [".cs"; ".csx"] "c_sharp" "text/x-csharp" slashStar
        [CLASSES; INTERFACES; GENERICS; LAMBDAS; ASYNC_AWAIT; NAMESPACES]
  | CPP =>
      LanguageInfo.mk "C++" [".cpp"; ".cc"; ".cxx"; ".c++"; ".hpp"; ".h"]
        "cpp" "text/x-c++src" slashStar [CLASSES; NAMESPACES; LAMBDAS]
  | GO =>
      LanguageInfo.mk "Go" [".go"] "go" "text/x-go" slashStar
        [INTERFACES; MODULES]
  end.

Definition getLanguageInfo (language : SupportedLanguage) : LanguageInfo.t :=
  LANGUAGE_MAP language.

Definition getSupportedLanguages : list SupportedLanguage := languages.

Definition getExtensions (language : SupportedLanguage) : list string :=
  LanguageInfo.extensions (LANGUAGE_MAP language).

(** [Object.values(SupportedLanguage).includes(language)]. *)
Definition isSupported (language : string) : bool :=
  existsb (fun v => String.eqb v language) (languageTag <$> languages).

(** [array.includes(target)] on enum members: a comparison of their string
    values. *)
Definition includesLanguage (l : list SupportedLanguage)
    (target : SupportedLanguage) : bool :=
  existsb (fun x => String.eqb (languageTag x) (languageTag target)) l.

Definition compatibilityMatrix (source : SupportedLanguage)
  : list SupportedLanguage :=
  match source with
  | PYTHON => [JAVASCRIPT; TYPESCRIPT; JAVA]
  | JAVASCRIPT => [PYTHON; TYPESCRIPT; JAVA]
  | TYPESCRIPT => [JAVASCRIPT; PYTHON; JAVA; CSHARP]
  | JAVA => [CSHARP; PYTHON; JAVASCRIPT; TYPESCRIPT]
  | CSHARP => [JAVA; TYPESCRIPT; CPP]
  | CPP => [CSHARP; JAVA]
  | GO => [JAVA; CSHARP]
  end.

Definition areCompatible (source target : SupportedLanguage) : bool :=
  includesLanguage (compatibilityMatrix source) target.

Section Detector.

(** [path.extname] and [String.prototype.toLowerCase] of the platform. *)
Variable extname : string -> string.
Variable toLowerCase : string -> string.

(** The content-based detector that [detect] falls back on.  The table of
    regular expressions of [detectFromContent] is not well formed as written
    (its two shebang entries, [/^#!/usr/bin/env python/m] and
    [/^#!/usr/bin/python/m], end at the second slash), so that function is
    not embedded: [detect] is stated over whatever function answers in its
    place, and nothing below depends on what it answers. *)
Variable detectFromContent : string -> option SupportedLanguage.

Definition detectFromExtension (filePath : string)
  : option SupportedLanguage :=
  let ext := toLowerCase (extname filePath) in
  List.find
    (fun lang =>
       existsb (fun e => String.eqb e ext)
               (LanguageInfo.extensions (LANGUAGE_MAP lang)))
    languages.

Definition detect (filePath content : string) : option SupportedLanguage :=
  match detectFromExtension filePath with
  | Some fromExtension => Some fromExtension
  | None => detectFromContent content
  end.

End Detector.

(** ** The language listings of the command line ([cli/index.ts]) *)

(** The filter of [handleLanguages] and of the target choices of
    [handleInteractive]:
    [languages.filter(t => source !== t && areCompatible(source, t))]. *)
Definition compatibleTargets (sourceLang : SupportedLanguage)
  : list SupportedLanguage :=
  List.filter
    (fun targetLang =>
       negb (String.eqb (languageTag sourceLang) (languageTag targetLang))
       && areCompatible sourceLang targetLang)
    getSupportedLanguages.

(** The target choices of [handleInteractive]; [None] is the answer
    ['auto']. *)
Definition targetChoices (sourceLanguage : option SupportedLanguage)
  : list (string * SupportedLanguage) :=
  match sourceLanguage with
  | None =>
      (fun lang => (LanguageInfo.name (getLanguageInfo lang), lang))
        <$> getSupportedLanguages
  | Some source =>
      (fun lang => (LanguageInfo.name (getLanguageInfo lang), lang))
        <$> compatibleTargets source
  end.

(** ** Basic facts *)

Lemma syntax_node_ind (P : Raw.SyntaxNode -> Prop) :
  (forall n, Forall P (Raw.children n) -> P n) -> forall n, P n.
Proof.
  intros step. fix IH 1. intros [ty s e t he sl]. apply step.
  unfold Raw.children; simpl.
  induction sl as [|[c|] sl IHsl]; simpl; [constructor | | exact IHsl].
  constructor; [apply IH | exact IHsl].
Qed.

Lemma position_eta (p : Position) : mkPosition (row p) (column p) = p.
Proof. by destruct p. Qed.

Lemma size_children n :
  Raw.size n = S (sum_list (Raw.size <$> Raw.children n)).
Proof.
  destruct n as [ty s e t he sl]; unfold Raw.children; simpl. f_equal.
  induction sl as [|[c|] sl IH]; simpl; auto.
Qed.

Lemma preorder_children n :
  Raw.preorder n = n :: concat (Raw.preorder <$> Raw.children n).
Proof.
  destruct n as [ty s e t he sl]; unfold Raw.children; simpl. f_equal.
  induction sl as [|[c|] sl IH]; simpl; auto. by rewrite IH.
Qed.

Lemma height_children n :
  Raw.height n = S (max_list (Raw.height <$> Raw.children n)).
Proof.
  destruct n as [ty s e t he sl]; unfold Raw.children; simpl. f_equal.
  induction sl as [|[c|] sl IH]; simpl; auto.
Qed.

(** Running over the slots is running [child i] for [i] below
    [childCount]. *)
Lemma slots_child n :
  Raw.slots n = Raw.child n <$> seq 0 (Raw.childCount n).
Proof.
  apply list_eq. intros i. rewrite list_lookup_fmap.
  unfold Raw.child, Raw.childCount.
  destruct (Raw.slots n !! i) as [o|] eqn:E.
  - rewrite lookup_seq_lt by (by eapply lookup_lt_Some).
    simpl. by rewrite E.
  - rewrite lookup_seq_ge; [done|]. by apply lookup_ge_None.
Qed.

Lemma convertNode_unfold node source h :
  convertNode node source h =
  let '(children, h1) := convertChildren (Raw.slots node) source [] h in
  let '(parsedNode, h2) :=
    alloc (mkParsedNode (Raw.type node) (Raw.startPosition node)
                        (Raw.endPosition node) (Raw.text node) children None)
          h1 in
  (parsedNode,
   foldl (fun h' child => set_parent child (Some parsedNode) h') h2 children).
Proof.
  destruct node as [ty s e t he sl]; simpl. rewrite !position_eta.
  match goal with
  | |- (let '(_, _) := ?L sl [] h in _) = _ =>
      assert (E : forall l acc h0, L l acc h0 = convertChildren l source acc h0)
  end.
  { induction l as [|[c|] l IH]; intros acc h0; simpl; [done | | apply IH].
    destruct (convertNode c source h0). apply IH. }
  by rewrite E.
Qed.

Lemma deref_lookup h r o : h !! r = Some o -> deref h r = o.
Proof. unfold deref. by intros ->. Qed.

Lemma deref_ge h r : length h <= r -> deref h r = undefinedNode.
Proof. intros H. unfold deref. by rewrite lookup_ge_None_2. Qed.

Lemma deref_app_l h h' r : r < length h -> deref (h ++ h') r = deref h r.
Proof. intros H. unfold deref. by rewrite lookup_app_l. Qed.

Lemma deref_alloc h o : deref (h ++ [o]) (length h) = o.
Proof.
  unfold deref. rewrite lookup_app_r by lia. by rewrite Nat.sub_diag.
Qed.

Lemma deref_set_parent_ne h r p a :
  a <> r -> deref (set_parent r p h) a = deref h a.
Proof.
  intros H. unfold deref, set_parent. by rewrite list_lookup_alter_ne.
Qed.

Lemma deref_set_parent_eq h r p :
  r < length h -> deref (set_parent r p h) r = with_parent p (deref h r).
Proof.
  intros H. destruct (lookup_lt_is_Some_2 h r H) as [o Ho].
  rewrite (deref_lookup h r o Ho). apply deref_lookup.
  unfold set_parent. by rewrite list_lookup_alter_eq, Ho.
Qed.

Lemma length_set_parent h r p : length (set_parent r p h) = length h.
Proof. apply length_alter. Qed.

Lemma set_parent_same h r p :
  parent (deref h r) = p -> set_parent r p h = h.
Proof.
  intros H. unfold set_parent.
  apply list_eq. intros i. destruct (decide (i = r)) as [->|Hne].
  - rewrite list_lookup_alter_eq.
    destruct (h !! r) as [o|] eqn:Ho; [|done].
    rewrite (deref_lookup _ _ _ Ho) in H.
    destruct o; simpl in *; by subst.
  - by rewrite list_lookup_alter_ne.
Qed.

Lemma length_set_parents h p cs :
  length (foldl (fun h' c => set_parent c p h') h cs) = length h.
Proof.
  revert h. induction cs as [|c cs IH]; intros h; simpl; [done|].
  by rewrite IH, length_set_parent.
Qed.

Lemma deref_set_parents h p cs a :
  Forall (fun c => c < length h) cs ->
  deref (foldl (fun h' c => set_parent c p h') h cs) a =
  if decide (a ∈ cs) then with_parent p (deref h a) else deref h a.
Proof.
  revert h. induction cs as [|c cs IH]; intros h Hcs; cbn [foldl].
  - rewrite decide_False; [done | apply not_elem_of_nil].
  - inversion Hcs as [|? ? Hc Hcs']; subst.
    rewrite IH by (rewrite length_set_parent; exact Hcs').
    destruct (decide (a = c)) as [->|Hne].
    + rewrite deref_set_parent_eq by done.
      rewrite (decide_True (P := c ∈ c :: cs)) by apply list_elem_of_here.
      by destruct (decide (c ∈ cs)).
    + rewrite deref_set_parent_ne by done.
      destruct (decide (a ∈ cs)) as [Hin|Hnin].
      * rewrite decide_True; [done | by apply list_elem_of_further].
      * rewrite decide_False; [done|].
        intros [?|?]%elem_of_cons; done.
Qed.

Lemma same_record_fields o o' :
  same_record o o' ->
  type o = type o' /\ startPosition o = startPosition o' /\
  endPosition o = endPosition o' /\ text o = text o' /\
  children o = children o'.
Proof.
  unfold same_record, with_parent. intros H. by inversion H.
Qed.

Lemma same_record_with_parent p o : same_record o (with_parent p o).
Proof. reflexivity. Qed.

Lemma agree_refl h : agree h h.
Proof. split; [lia | reflexivity]. Qed.

Lemma agree_trans h1 h2 h3 : agree h1 h2 -> agree h2 h3 -> agree h1 h3.
Proof.
  intros [L1 A1] [L2 A2]. split; [lia|]. intros a Ha.
  unfold same_record in *. rewrite A1 by done. apply A2. lia.
Qed.

Lemma agree_set_parent h r p : agree h (set_parent r p h).
Proof.
  split; [by rewrite length_set_parent|]. intros a Ha.
  destruct (decide (a = r)) as [->|Hne].
  - rewrite deref_set_parent_eq by done. apply same_record_with_parent.
  - by rewrite deref_set_parent_ne.
Qed.

Lemma agree_alloc h o : agree h (h ++ [o]).
Proof.
  split; [rewrite length_app; lia|]. intros a Ha.
  by rewrite deref_app_l.
Qed.

Lemma agree_set_parents h p cs :
  agree h (foldl (fun h' c => set_parent c p h') h cs).
Proof.
  revert h. induction cs as [|c cs IH]; intros h; cbn [foldl].
  - apply agree_refl.
  - eapply agree_trans; [apply agree_set_parent | apply IH].
Qed.

Lemma agree_same h h' :
  length h <= length h' ->
  (forall a, a < length h -> deref h' a = deref h a) -> agree h h'.
Proof. intros L E. split; [done|]. intros a Ha. by rewrite E. Qed.

Lemma Forall2_Forall_impl {A B} (R R' : A -> B -> Prop) l k :
  Forall2 R l k -> Forall (fun y => forall x, R x y -> R' x y) k ->
  Forall2 R' l k.
Proof.
  induction 1 as [|x y l k Hxy _ IH]; intros Hk; [constructor|].
  inversion Hk; subst. constructor; auto.
Qed.

Lemma Repr_agree h h' :
  agree h h' -> forall n r, Repr h r n -> Repr h' r n.
Proof.
  intros [Hlen Hag]. induction n as [n IH] using syntax_node_ind.
  intros r HR. inversion HR as [? ? Hr Hty Hs He Ht Hkids]; subst.
  destruct (same_record_fields _ _ (Hag r Hr)) as (E1 & E2 & E3 & E4 & E5).
  constructor; [lia | congruence..|].
  rewrite <- E5. eapply Forall2_Forall_impl; [exact Hkids|].
  eapply Forall_impl; [exact IH|]. auto.
Qed.

Lemma Forest_empty h : Forest (length h) h [].
Proof.
  split.
  - intros a c Ha. rewrite deref_ge by done. by intros ?%elem_of_nil.
  - intros a ?. lia.
  - by intros a ?%elem_of_nil.
Qed.

(** A freshly converted subtree joins the forest converted before it. *)
Lemma Forest_join b h1 acc h' r :
  Forest b h1 acc -> b <= length h1 <= length h' ->
  (forall a, a < length h1 -> deref h' a = deref h1 a) ->
  Forest (length h1) h' [r] ->
  Forest b h' (acc ++ [r]).
Proof.
  intros [D1 U1 R1] [Hb Hl] Hold [D2 U2 R2]. split.
  - intros a c Ha Hc. destruct (decide (a < length h1)) as [Hlt|Hge].
    + rewrite Hold in Hc by done. destruct (D1 a c Ha Hc) as [Hr Hp].
      split; [done|]. rewrite Hold by lia. done.
    + destruct (D2 a c) as [Hr Hp]; [lia | done |]. split; [lia | done].
  - intros a Ha Hnr.
    apply not_elem_of_app in Hnr as [Hn1 Hn2].
    destruct (decide (a < length h1)) as [Hlt|Hge].
    + destruct (U1 a) as (p & Hp & Hr & Hc); [lia | done |].
      exists p. rewrite !Hold by lia. repeat split; try done; lia.
    + destruct (U2 a) as (p & Hp & Hr & Hc); [lia | done |].
      exists p. repeat split; try done; lia.
  - intros a [Ha|Ha]%elem_of_app.
    + destruct (R1 a Ha) as [Hr Hp]. rewrite Hold by lia. split; [lia|done].
    + destruct (R2 a Ha) as [Hr Hp]. split; [lia | done].
Qed.

(** Creating the node's own object and pointing the converted children at
    it closes the forest into one tree. *)
Lemma Forest_close b h cs o :
  Forest b h cs -> b <= length h ->
  children o = cs -> parent o = None ->
  Forest b (foldl (fun h' c => set_parent c (Some (length h)) h')
                  (h ++ [o]) cs)
         [length h].
Proof.
  intros [D U R] Hb Hkids Hpar.
  assert (Hcs : Forall (fun c => c < length (h ++ [o])) cs).
  { apply Forall_forall. intros c Hc. destruct (R c Hc) as [? _].
    rewrite length_app; simpl; lia. }
  assert (Hkd : forall a,
             children (deref (foldl (fun h' c =>
                                       set_parent c (Some (length h)) h')
                                    (h ++ [o]) cs) a)
             = children (deref (h ++ [o]) a)).
  { intros a. rewrite deref_set_parents by done. by destruct (decide _). }
  split.
  - intros a c Ha Hc. rewrite Hkd in Hc.
    destruct (lt_eq_lt_dec a (length h)) as [[Hlt| ->]|Hgt].
    + rewrite deref_app_l in Hc by done.
      destruct (D a c Ha Hc) as [Hr Hp]. split; [done|].
      rewrite deref_set_parents by done.
      rewrite decide_False.
      * rewrite deref_app_l by lia. done.
      * intros Hin. destruct (R c Hin) as [_ Hn]. congruence.
    + rewrite deref_alloc, Hkids in Hc.
      destruct (R c Hc) as [Hr _]. split; [lia|].
      rewrite deref_set_parents by done. by rewrite decide_True.
    + rewrite deref_ge in Hc by (rewrite length_app; simpl; lia).
      by apply elem_of_nil in Hc.
  - intros a Ha Hnr. rewrite length_set_parents, length_app in Ha |- *.
    simpl in Ha. rewrite not_elem_of_cons in Hnr. destruct Hnr as [Hne _].
    destruct (decide (a ∈ cs)) as [Hin|Hnin].
    + exists (length h). rewrite Hkd, deref_alloc, Hkids.
      rewrite deref_set_parents by done. rewrite decide_True by done.
      repeat split; try done; simpl; lia.
    + destruct (U a) as (p & Hp & Hr & Hc); [lia | done |].
      exists p. rewrite Hkd. rewrite deref_set_parents by done.
      rewrite decide_False by done. rewrite !deref_app_l by lia.
      repeat split; try done; simpl; lia.
  - intros a Ha%list_elem_of_singleton. subst a.
    rewrite length_set_parents, length_app; simpl. split; [lia|].
    rewrite deref_set_parents by done. rewrite decide_False.
    + by rewrite deref_alloc.
    + intros Hin. destruct (R _ Hin). lia.
Qed.

Lemma omap_id_Some {A} (x : A) (l : list (option A)) :
  omap id (Some x :: l) = x :: omap id l.
Proof. reflexivity. Qed.

Lemma omap_id_None {A} (l : list (option A)) :
  omap id (None :: l) = omap id l.
Proof. reflexivity. Qed.

Lemma convertChildren_built sl source :
  Forall (fun n => forall h0, built n h0 (convertNode n source h0))
         (omap id sl) ->
  forall acc h1 b, b <= length h1 -> Forest b h1 acc ->
    let res := convertChildren sl source acc h1 in
    length res.2 = length h1 + sum_list (Raw.size <$> omap id sl) /\
    (forall a, a < length h1 -> deref res.2 a = deref h1 a) /\
    Forest b res.2 res.1 /\
    exists new, res.1 = acc ++ new /\
                Forall2 (Repr res.2) new (omap id sl).
Proof.
  induction sl as [|[c|] sl IH]; intros HP acc h1 b Hb HF;
    cbn [convertChildren].
  - split_and!; [simpl; lia | done | done |].
    exists []. by rewrite app_nil_r.
  - rewrite omap_id_Some in *.
    inversion HP as [|? ? Hc Hrest]; subst.
    specialize (Hc h1). destruct (convertNode c source h1) as [r h'].
    destruct Hc as (L & Rt & Old & F & Rp); cbn [fst snd] in *.
    rewrite set_parent_same
      by (apply (F_roots _ _ _ F); apply list_elem_of_here).
    destruct (IH Hrest (acc ++ [r]) h' b) as (L2 & Old2 & F2 & new & E & RR).
    { lia. }
    { apply (Forest_join b h1); [done | lia | done | done]. }
    split_and!; [| | done |].
    + rewrite fmap_cons. cbn [sum_list sum_list_with]. change (id (Raw.size c)) with (Raw.size c). lia.
    + intros a Ha. rewrite Old2 by lia. by apply Old.
    + exists (r :: new). split; [by rewrite E, <- app_assoc|].
      constructor; [|done].
      eapply Repr_agree; [|exact Rp]. apply agree_same; [lia|done].
  - rewrite omap_id_None in *. by apply IH.
Qed.

Lemma convertNode_built source n :
  forall h0, built n h0 (convertNode n source h0).
Proof.
  induction n as [n IH] using syntax_node_ind. intros h0.
  rewrite convertNode_unfold.
  pose proof (convertChildren_built (Raw.slots n) source IH [] h0
                (length h0) (le_n _) (Forest_empty h0)) as H.
  destruct (convertChildren (Raw.slots n) source [] h0) as [cs h1].
  simpl in H. destruct H as (L & Old & F & new & E & RR). subst new.
  unfold alloc. unfold built; simpl.
  set (o := mkParsedNode _ _ _ _ cs None).
  assert (Hcs : Forall (fun c => c < length (h1 ++ [o])) cs).
  { apply Forall_forall. intros c Hc. destruct (F_roots _ _ _ F c Hc) as [? _].
    rewrite length_app; simpl; lia. }
  rewrite length_set_parents, length_app, size_children. simpl.
  split_and!.
  - fold (Raw.children n) in L. lia.
  - lia.
  - intros a Ha. rewrite deref_set_parents by done.
    rewrite decide_False.
    + rewrite deref_app_l by lia. by apply Old.
    + intros Hin. destruct (F_roots _ _ _ F a Hin). lia.
  - apply Forest_close; [done | lia | done | done].
  - assert (Hag : agree h1 (foldl (fun h' c =>
                                     set_parent c (Some (length h1)) h')
                                  (h1 ++ [o]) cs)).
    { eapply agree_trans; [apply agree_alloc | apply agree_set_parents]. }
    assert (Ho : deref (foldl (fun h' c =>
                                 set_parent c (Some (length h1)) h')
                              (h1 ++ [o]) cs) (length h1) = o).
    { rewrite deref_set_parents by done. rewrite decide_False.
      - apply deref_alloc.
      - intros Hin. destruct (F_roots _ _ _ F _ Hin). lia. }
    constructor; rewrite ?Ho; try done.
    + rewrite length_set_parents, length_app; simpl; lia.
    + simpl. eapply Forall2_impl; [exact RR|].
      intros r c. by apply Repr_agree.
Qed.

(** No reference of the tree dangles: the root, the children and the parent
    of every object the call allocates are live objects of the resulting
    store, so [deref] never falls back on [undefinedNode] there. *)
Lemma convertNode_closed source n h0 :
  let '(r, h) := convertNode n source h0 in
  r < length h /\
  forall a, length h0 <= a < length h ->
    (forall c, c ∈ children (deref h a) -> c < length h) /\
    (forall p, parent (deref h a) = Some p -> p < length h).
Proof.
  pose proof (convertNode_built source n h0) as B.
  destruct (convertNode n source h0) as [r h].
  destruct B as (L & Rt & Old & F & Rp); simpl in *.
  split; [lia|]. intros a Ha. split.
  - intros c Hc. destruct (F_down _ _ _ F a c) as [? _]; [lia | done | lia].
  - intros p Hp. destruct (decide (a = r)) as [->|Hne].
    + destruct (F_roots _ _ _ F r) as [_ Hn]; [apply list_elem_of_here|].
      congruence.
    + destruct (F_up _ _ _ F a) as (p' & Hp' & Hlt & _);
        [lia | by rewrite list_elem_of_singleton |].
      assert (p' = p) by congruence. subst. lia.
Qed.

(** ** Traversals of the normalized tree *)

Lemma elem_of_concat {A} (x : A) (ls : list (list A)) :
  x ∈ concat ls <-> exists l, x ∈ l /\ l ∈ ls.
Proof.
  rewrite list_elem_of_In, in_concat. split.
  - intros (l & H1 & H2). exists l. by rewrite !list_elem_of_In.
  - intros (l & H1 & H2). exists l. by rewrite <- !list_elem_of_In.
Qed.

Lemma mapM_cons_Some {A B} (f : A -> option B) x l y k :
  f x = Some y -> mapM f l = Some k -> mapM f (x :: l) = Some (y :: k).
Proof. intros E1 E2. cbn [mapM]. rewrite E1. simpl. by rewrite E2. Qed.

Lemma length_preorder n : length (Raw.preorder n) = Raw.size n.
Proof.
  induction n as [n IH] using syntax_node_ind.
  rewrite preorder_children, size_children. simpl. f_equal.
  induction IH as [|c cs Hc _ IHcs]; [done|].
  rewrite !fmap_cons. simpl. rewrite length_app, Hc, IHcs. done.
Qed.

Lemma height_le_size n : Raw.height n <= Raw.size n.
Proof.
  induction n as [n IH] using syntax_node_ind.
  rewrite height_children, size_children. apply le_n_S.
  induction IH as [|c cs Hc _ IHcs]; [done|].
  rewrite !fmap_cons. simpl. lia.
Qed.

Lemma preorder_Repr h :
  forall n r fuel, Repr h r n -> Raw.height n <= fuel ->
    exists rs, preorder fuel h r = Some rs /\
               Forall2 (mirrors h) rs (Raw.preorder n).
Proof.
  induction n as [n IH] using syntax_node_ind. intros r fuel HR Hf.
  rewrite height_children in Hf. destruct fuel as [|f]; [lia|].
  inversion HR as [? ? Hr Hty Hs He Ht Hkids]; subst.
  assert (Hh : Forall (fun c => Raw.height c <= f) (Raw.children n)).
  { apply Forall_forall. intros c Hc.
    pose proof (max_list_elem_of_le (Raw.height c)
                  (Raw.height <$> Raw.children n)
                  (list_elem_of_fmap_2 _ _ _ Hc)). lia. }
  assert (exists rss,
             mapM (preorder f h) (children (deref h r)) = Some rss /\
             Forall2 (mirrors h) (concat rss)
                     (concat (Raw.preorder <$> Raw.children n))) as
      (rss & E & M).
  { clear HR Hf. revert IH Hh.
    induction Hkids as [|k c ks cs Hkc _ IHk]; intros IH Hh.
    - exists []. split; [done | constructor].
    - inversion IH as [|? ? IHc IHcs]; inversion Hh as [|? ? Hhc Hhcs]; subst.
      destruct (IHc k f Hkc Hhc) as (rs1 & E1 & M1).
      destruct IHk as (rss & E2 & M2); [done..|].
      exists (rs1 :: rss). split; [by apply mapM_cons_Some|].
      rewrite fmap_cons. simpl. by apply Forall2_app. }
  exists (r :: concat rss). split.
  - cbn [preorder]. by rewrite E.
  - rewrite preorder_children. by constructor.
Qed.

Lemma forEach_traverse f h ty :
  (forall r rs acc, preorder f h r = Some rs ->
     traverse f h ty r acc =
     Some (acc ++ List.filter
                    (fun x => String.eqb (type (deref h x)) ty) rs)) ->
  forall kids rss acc, mapM (preorder f h) kids = Some rss ->
    forEach (traverse f h ty) kids acc =
    Some (acc ++ List.filter (fun x => String.eqb (type (deref h x)) ty)
                             (concat rss)).
Proof.
  intros IH kids rss acc H. apply mapM_Some in H. revert acc.
  induction H as [|k rs kids rss Hk _ IHk]; intros acc; simpl.
  - by rewrite app_nil_r.
  - rewrite (IH _ _ _ Hk). simpl. rewrite IHk.
    by rewrite List.filter_app, app_assoc.
Qed.

(** [traverse] collects, in pre-order, the nodes of the requested kind. *)
Lemma traverse_preorder fuel h ty :
  forall r rs acc, preorder fuel h r = Some rs ->
    traverse fuel h ty r acc =
    Some (acc ++ List.filter
                   (fun x => String.eqb (type (deref h x)) ty) rs).
Proof.
  induction fuel as [|f IH]; intros r rs acc H; [done|].
  cbn [preorder] in H.
  destruct (mapM (preorder f h) (children (deref h r))) as [rss|] eqn:E;
    [|done].
  simpl in H. injection H as <-. cbn [traverse].
  rewrite (forEach_traverse f h ty IH _ _ _ E). simpl.
  destruct (String.eqb (type (deref h r)) ty); [|done].
  by rewrite <- app_assoc.
Qed.

Lemma findNodesByType_preorder fuel h ast ty rs :
  preorder fuel h ast = Some rs ->
  findNodesByType fuel h ast ty =
  Some (List.filter (fun x => String.eqb (type (deref h x)) ty) rs).
Proof. intros H. unfold findNodesByType. by rewrite (traverse_preorder _ _ _ _ _ _ H). Qed.

(** More fuel does not change a traversal that returned. *)
Lemma preorder_fuel_mono fuel h :
  forall r rs fuel', preorder fuel h r = Some rs -> fuel <= fuel' ->
    preorder fuel' h r = Some rs.
Proof.
  induction fuel as [|f IH]; intros r rs fuel' H Hle; [done|].
  destruct fuel' as [|f']; [lia|]. cbn [preorder] in *.
  destruct (mapM (preorder f h) (children (deref h r))) as [rss|] eqn:E;
    [|done].
  assert (mapM (preorder f' h) (children (deref h r)) = Some rss) as ->;
    [|done].
  apply mapM_Some. apply mapM_Some in E.
  eapply Forall2_impl; [exact E|]. intros k ks Hk. apply IH; [done | lia].
Qed.

Lemma preorder_det h r fuel1 fuel2 rs1 rs2 :
  preorder fuel1 h r = Some rs1 -> preorder fuel2 h r = Some rs2 ->
  rs1 = rs2.
Proof.
  intros H1 H2.
  pose proof (preorder_fuel_mono _ _ _ _ (Nat.max fuel1 fuel2) H1
                (Nat.le_max_l _ _)) as E1.
  pose proof (preorder_fuel_mono _ _ _ _ (Nat.max fuel1 fuel2) H2
                (Nat.le_max_r _ _)) as E2.
  congruence.
Qed.

Lemma preorder_head fuel h r rs :
  preorder fuel h r = Some rs -> r ∈ rs.
Proof.
  destruct fuel as [|f]; [done|]. cbn [preorder].
  destruct (mapM _ _); [|done]. simpl. intros [= <-]. apply list_elem_of_here.
Qed.

(** The enumeration is closed under taking children. *)
Lemma preorder_children_closed fuel h :
  forall r rs p c, preorder fuel h r = Some rs ->
    p ∈ rs -> c ∈ children (deref h p) -> c ∈ rs.
Proof.
  induction fuel as [|f IH]; intros r rs p c H Hp Hc; [done|].
  cbn [preorder] in H.
  destruct (mapM (preorder f h) (children (deref h r))) as [rss|] eqn:E;
    [|done].
  simpl in H. injection H as <-. apply mapM_Some in E.
  apply list_elem_of_further, elem_of_concat.
  apply elem_of_cons in Hp as [->|Hp].
  - apply list_elem_of_lookup in Hc as [i Hi].
    destruct (Forall2_lookup_l _ _ _ _ _ E Hi) as (rs' & Hrs' & Hpre).
    exists rs'. split; [by eapply preorder_head|].
    by eapply list_elem_of_lookup_2.
  - apply elem_of_concat in Hp as (rs' & Hp & Hrs').
    apply list_elem_of_lookup in Hrs' as [i Hi].
    destruct (Forall2_lookup_r _ _ _ _ _ E Hi) as (k & Hk & Hpre).
    exists rs'. split; [by eapply IH|]. by eapply list_elem_of_lookup_2.
Qed.

(** In a forest, the enumeration below [r] stays between the base address
    and [r]. *)
Lemma preorder_bounds b h roots fuel :
  Forest b h roots ->
  forall r rs x, preorder fuel h r = Some rs -> b <= r -> x ∈ rs ->
    b <= x <= r.
Proof.
  intros F. induction fuel as [|f IH]; intros r rs x H Hb Hx; [done|].
  cbn [preorder] in H.
  destruct (mapM (preorder f h) (children (deref h r))) as [rss|] eqn:E;
    [|done].
  simpl in H. injection H as <-. apply mapM_Some in E.
  apply elem_of_cons in Hx as [->|Hx]; [lia|].
  apply elem_of_concat in Hx as (rs' & Hx & Hrs').
  apply list_elem_of_lookup in Hrs' as [i Hi].
  destruct (Forall2_lookup_r _ _ _ _ _ E Hi) as (k & Hk & Hpre).
  destruct (F_down _ _ _ F r k Hb) as [Hr _];
    [by eapply list_elem_of_lookup_2|].
  destruct (IH k rs' x Hpre) as [? ?]; [lia | done | lia].
Qed.

(** ** The tree built by [convertNode] *)

Lemma built_preorder n h0 r h :
  built n h0 (r, h) ->
  exists rs, (forall k, preorder (Raw.height n + k) h r = Some rs) /\
             Forall2 (mirrors h) rs (Raw.preorder n).
Proof.
  intros (L & Rt & Old & F & Rp); simpl in *.
  destruct (preorder_Repr h n r (Raw.height n) Rp (le_n _)) as (rs & E & M).
  exists rs. split; [|done]. intros k.
  eapply preorder_fuel_mono; [exact E | lia].
Qed.

(** Every object allocated by the call is reached from the root. *)
Lemma built_covers n h0 r h fuel rs :
  built n h0 (r, h) -> preorder fuel h r = Some rs ->
  forall a, length h0 <= a < length h -> a ∈ rs.
Proof.
  intros (L & Rt & Old & F & Rp) Hpre; simpl in *.
  assert (H : forall k a, length h - a <= k ->
                          length h0 <= a < length h -> a ∈ rs).
  { induction k as [|k IH]; intros a Hk Ha; [lia|].
    destruct (decide (a = r)) as [->|Hne]; [by eapply preorder_head|].
    destruct (F_up _ _ _ F a) as (p & Hp & Hr & Hc);
      [lia | by rewrite list_elem_of_singleton |].
    eapply preorder_children_closed; [exact Hpre | | exact Hc].
    apply IH; lia. }
  intros a Ha. by apply (H (length h - a)).
Qed.

Lemma built_range n h0 r h fuel rs :
  built n h0 (r, h) -> preorder fuel h r = Some rs ->
  forall a, a ∈ rs -> length h0 <= a < length h.
Proof.
  intros (L & Rt & Old & F & Rp) Hpre a Ha; simpl in *.
  destruct (preorder_bounds _ _ _ _ F r rs a Hpre) as [? ?]; [|done|lia].
  destruct (F_roots _ _ _ F r); [apply list_elem_of_here | lia].
Qed.

Lemma built_NoDup n h0 r h fuel rs :
  built n h0 (r, h) -> preorder fuel h r = Some rs -> NoDup rs.
Proof.
  intros B Hpre.
  destruct (built_preorder _ _ _ _ B) as (rs' & E & M).
  pose proof (preorder_det _ _ _ _ _ _ Hpre (E 0)) as <-.
  apply Forall2_length in M. rewrite length_preorder in M.
  apply NoDup_ListNoDup.
  apply (NoDup_incl_NoDup (l := seq (length h0) (Raw.size n))).
  - apply seq_NoDup.
  - rewrite length_seq. lia.
  - intros a Ha. apply list_elem_of_In. apply list_elem_of_In, elem_of_seq in Ha.
    eapply built_covers; [exact B | exact Hpre |].
    destruct B as (L & _). simpl in L. lia.
Qed.

(** The [parent] of a tree node lies at a larger address, so ancestors do. *)
Lemma ancestor_above b h roots c p :
  Forest b h roots -> b <= c < length h ->
  ancestorOf h c p -> c < p < length h.
Proof.
  intros F Hc Hanc. induction Hanc as [c p Hp|c q p Hq _ IH].
  - destruct (decide (c ∈ roots)) as [Hr|Hr].
    + destruct (F_roots _ _ _ F c Hr) as [_ Hn]. unfold parentOf in Hp.
      congruence.
    + destruct (F_up _ _ _ F c Hc Hr) as (p' & Hp' & Hlt & _).
      unfold parentOf in Hp. assert (p' = p) by congruence. by subst.
  - assert (c < q < length h) as Hq'.
    { destruct (decide (c ∈ roots)) as [Hr|Hr].
      + destruct (F_roots _ _ _ F c Hr) as [_ Hn]. unfold parentOf in Hq.
        congruence.
      + destruct (F_up _ _ _ F c Hc Hr) as (p' & Hp' & Hlt & _).
        unfold parentOf in Hq. assert (p' = q) by congruence. by subst. }
    destruct IH; lia.
Qed.

(** The ascent of [extractDecorators] returns once the fuel exceeds the
    number of addresses above the starting point. *)
Lemma ascend_terminates b h roots :
  Forest b h roots ->
  forall fuel current decorators,
    match current with
    | Some cur => b <= cur < length h /\ length h - cur < fuel
    | None => 0 < fuel
    end ->
    is_Some (ascend fuel h current decorators).
Proof.
  intros F. induction fuel as [|f IH]; intros current decorators H.
  - destruct current as [cur|]; lia.
  - cbn [ascend]. destruct current as [cur|]; [|by eexists].
    destruct H as [Hc Hf].
    destruct (String.eqb _ _); [|by eexists].
    apply IH. destruct (parent (deref h cur)) as [p|] eqn:Hp; [|lia].
    destruct (ancestor_above b h roots cur p F Hc) as [? ?]; [|lia].
    by apply tc_once.
Qed.


(** Every node of the tree other than the root has the root among its
    ancestors. *)
Lemma built_root_ancestor n h0 r h :
  built n h0 (r, h) ->
  forall c, length h0 <= c < length h -> c = r \/ ancestorOf h c r.
Proof.
  intros (L & Rt & Old & F & Rp); simpl in *.
  assert (H : forall k c, length h - c <= k ->
                          length h0 <= c < length h ->
                          c = r \/ ancestorOf h c r).
  { induction k as [|k IH]; intros c Hk Hc; [lia|].
    destruct (decide (c = r)) as [->|Hne]; [by left | right].
    destruct (F_up _ _ _ F c) as (p & Hp & Hr & _);
      [lia | by rewrite list_elem_of_singleton |].
    destruct (IH p) as [->|Hanc]; [lia | lia | |].
    - by apply tc_once.
    - eapply tc_l; [exact Hp | exact Hanc]. }
  intros c Hc. by apply (H (length h - c)).
Qed.

Lemma ascend_cyclic fuel decorators :
  ascend fuel Fixtures.cyclic (Some 0) decorators = None.
Proof.
  revert decorators. induction fuel as [|f IH]; intros decorators; [done|].
  cbn [ascend]. change (deref Fixtures.cyclic 0)
    with (mkParsedNode "decorated_definition" (mkPosition 0 0)
                       (mkPosition 0 0) "" [] (Some 0)).
  cbn [type parent children]. rewrite String.eqb_refl. apply IH.
Qed.

(** ** The normalizer: structure of the result *)

(** C1. The normalized tree mirrors the raw tree node for node: the call
    allocates exactly as many objects as the raw tree has nodes, the
    pre-order enumeration of the result lists each of them once, and the
    i-th object enumerated carries kind, span and text of the i-th raw node
    in pre-order. *)
Theorem convertNode_one_to_one (n : Raw.SyntaxNode) (source : string)
    (h0 : Heap) :
  let '(r, h) := convertNode n source h0 in
  length h = length h0 + Raw.size n /\
  exists rs,
    (forall k, preorder (Raw.height n + k) h r = Some rs) /\
    length rs = length (Raw.preorder n) /\
    length rs = Raw.size n /\
    NoDup rs /\
    Forall2 (mirrors h) rs (Raw.preorder n).
Proof.
  pose proof (convertNode_built source n h0) as B.
  destruct (convertNode n source h0) as [r h].
  destruct (built_preorder _ _ _ _ B) as (rs & E & M).
  split; [apply B|]. exists rs.
  pose proof (Forall2_length _ _ _ M) as Hlen.
  split_and!; [done | done | by rewrite Hlen, length_preorder | | done].
  eapply built_NoDup; [exact B | exact (E 0)].
Qed.

(** C2. In the tree returned by [convertNode] the root has no [parent];
    every other node has a [parent] that is a node of the tree and whose
    [children] hold that very reference; and no node is its own ancestor. *)
Theorem convertNode_parent_links (n : Raw.SyntaxNode) (source : string)
    (h0 : Heap) :
  let '(r, h) := convertNode n source h0 in
  parent (deref h r) = None /\
  exists rs,
    (forall k, preorder (Raw.height n + k) h r = Some rs) /\
    (forall c, c ∈ rs -> c <> r ->
       exists p, parent (deref h c) = Some p /\ p ∈ rs /\
                 c ∈ children (deref h p)) /\
    (forall c, c ∈ rs -> ~ ancestorOf h c c).
Proof.
  pose proof (convertNode_built source n h0) as B.
  destruct (convertNode n source h0) as [r h].
  destruct (built_preorder _ _ _ _ B) as (rs & E & M).
  pose proof B as (L & Rt & Old & F & Rp); simpl in *.
  split; [apply (F_roots _ _ _ F); apply list_elem_of_here|].
  exists rs. split_and!; [done | |].
  - intros c Hc Hne.
    pose proof (built_range _ _ _ _ _ _ B (E 0) c Hc) as Hr.
    destruct (F_up _ _ _ F c) as (p & Hp & Hlt & Hin);
      [lia | by rewrite list_elem_of_singleton |].
    exists p. split_and!; [done | | done].
    eapply built_covers; [exact B | exact (E 0) | lia].
  - intros c Hc Hanc.
    pose proof (built_range _ _ _ _ _ _ B (E 0) c Hc) as Hr.
    destruct (ancestor_above _ _ _ c c F Hr Hanc). lia.
Qed.

(** C10. On every node of a tree built by [convertNode] the ascent of
    [extractDecorators] returns: the [parent] chain leads to the root, whose
    [parent] is absent.  The loop itself carries no bound: on a store with a
    [parent] cycle it returns for no amount of fuel. *)
Theorem extractDecorators_terminates (n : Raw.SyntaxNode) (source : string)
    (h0 : Heap) :
  let '(r, h) := convertNode n source h0 in
  (exists rs,
     (forall k, preorder (Raw.height n + k) h r = Some rs) /\
     forall c, c ∈ rs ->
       (c = r \/ ancestorOf h c r) /\
       parent (deref h r) = None /\
       forall k, is_Some (extractDecorators (S (length h) + k) h c)) /\
  (forall fuel, extractDecorators fuel Fixtures.cyclic 0 = None).
Proof.
  pose proof (convertNode_built source n h0) as B.
  destruct (convertNode n source h0) as [r h].
  destruct (built_preorder _ _ _ _ B) as (rs & E & M).
  pose proof B as (L & Rt & Old & F & Rp); simpl in *.
  split; [|intros fuel; apply ascend_cyclic].
  exists rs. split; [done|]. intros c Hc.
  pose proof (built_range _ _ _ _ _ _ B (E 0) c Hc) as Hr.
  split_and!.
  - by eapply built_root_ancestor.
  - apply (F_roots _ _ _ F); apply list_elem_of_here.
  - intros k. unfold extractDecorators.
    apply (ascend_terminates _ _ _ F).
    destruct (parent (deref h c)) as [p|] eqn:Hp; [|lia].
    destruct (ancestor_above _ _ _ c p F Hr) as [? ?]; [by apply tc_once|].
    lia.
Qed.

(** ** The error collector *)

Lemma collectErrors_unfold node source errors :
  collectErrors node source errors =
  if Raw.hasError node then
    foldl (fun errs c => collectErrors c source errs)
          (if isErrorKind node then errors ++ [syntaxErrorAt node]
           else errors)
          (Raw.children node)
  else errors.
Proof.
  destruct node as [ty s e t he sl]; unfold Raw.children, isErrorKind; simpl.
  destruct he; [|done].
  generalize (if String.eqb ty "ERROR"
              then errors ++ [syntaxErrorAt (Raw.Node ty s e t true sl)]
              else errors).
  induction sl as [|[c|] sl IH]; intros errs; simpl; auto.
Qed.

Lemma flaggedNodes_unfold node :
  flaggedNodes node =
  if Raw.hasError node
  then node :: concat (flaggedNodes <$> Raw.children node)
  else [].
Proof.
  destruct node as [ty s e t he sl]; unfold Raw.children; simpl.
  destruct he; [|done]. f_equal.
  induction sl as [|[c|] sl IH]; simpl; auto. by rewrite IH.
Qed.

Lemma flagsSound_unfold node :
  flagsSound node =
  implb (isErrorKind node) (Raw.hasError node)
  && forallb (fun c => implb (Raw.hasError c) (Raw.hasError node)
                       && flagsSound c)
             (Raw.children node).
Proof.
  destruct node as [ty s e t he sl]; unfold Raw.children; simpl. f_equal.
  induction sl as [|[c|] sl IH]; simpl; auto. by rewrite IH.
Qed.

(** The collector appends one diagnostic per ERROR node it enters, in the
    order it enters them. *)
Lemma collectErrors_flagged source :
  forall node errors,
    collectErrors node source errors =
    errors ++ (syntaxErrorAt <$>
                 List.filter isErrorKind (flaggedNodes node)).
Proof.
  induction node as [n IH] using syntax_node_ind. intros errors.
  rewrite collectErrors_unfold, flaggedNodes_unfold.
  destruct (Raw.hasError n); [|by rewrite app_nil_r].
  assert (Hkids : forall errs,
             foldl (fun errs c => collectErrors c source errs) errs
                   (Raw.children n) =
             errs ++ (syntaxErrorAt <$>
                      List.filter isErrorKind
                        (concat (flaggedNodes <$> Raw.children n)))).
  { induction IH as [|c cs Hc _ IHcs]; intros errs; cbn [foldl].
    - simpl. by rewrite app_nil_r.
    - rewrite fmap_cons. cbn [concat].
      rewrite IHcs, Hc, List.filter_app, fmap_app, app_assoc. done. }
  rewrite Hkids. cbn [List.filter].
  destruct (isErrorKind n); simpl; [|done]. by rewrite <- app_assoc.
Qed.

(** Under the flag discipline of the grammar engine, the ERROR nodes the
    collector enters are all the ERROR nodes of the tree. *)
Lemma flagsSound_all_entered :
  forall node, flagsSound node = true ->
    List.filter isErrorKind (flaggedNodes node) =
    List.filter isErrorKind (Raw.preorder node).
Proof.
  induction node as [n IH] using syntax_node_ind. intros Hs.
  rewrite flagsSound_unfold in Hs. apply andb_prop in Hs as [Hn Hkids].
  rewrite flaggedNodes_unfold, preorder_children.
  assert (Hcs : List.filter isErrorKind
                  (concat (flaggedNodes <$> Raw.children n)) =
                List.filter isErrorKind
                  (concat (Raw.preorder <$> Raw.children n))).
  { revert Hkids. induction IH as [|c cs Hc _ IHcs]; intros Hkids; [done|].
    simpl in Hkids. apply andb_prop in Hkids as [Hc' Hcs'].
    apply andb_prop in Hc' as [_ Hc'].
    rewrite !fmap_cons. cbn [concat].
    rewrite !List.filter_app, Hc, IHcs; done. }
  destruct (Raw.hasError n) eqn:He.
  - cbn [List.filter]. by rewrite Hcs.
  - cbn [List.filter]. destruct (isErrorKind n); [done|].
    rewrite <- Hcs. clear Hcs IH Hn.
    induction (Raw.children n) as [|c cs IHcs]; [done|].
    simpl in Hkids. apply andb_prop in Hkids as [Hc Hcs].
    apply andb_prop in Hc as [Hc _].
    simpl. rewrite (flaggedNodes_unfold c).
    destruct (Raw.hasError c); [done|]. simpl. by apply IHcs.
Qed.

(** C4. The collector appends to [errors] one diagnostic for each node of
    kind ERROR that it enters, in order, with the message
    "Syntax error at <row>:<column>", the node's start position and
    severity [error].  It enters a flagged node and then all its children;
    it enters nothing at or below a node that is not flagged.  Under the
    grammar engine's flag discipline the ERROR nodes it enters are all the
    ERROR nodes of the tree. *)
Theorem collectErrors_reports (node : Raw.SyntaxNode) (source : string)
    (errors : list ParseError) :
  collectErrors node source errors =
    errors ++ (syntaxErrorAt <$>
                 List.filter isErrorKind (flaggedNodes node)) /\
  flaggedNodes node =
    (if Raw.hasError node
     then node :: concat (flaggedNodes <$> Raw.children node)
     else []) /\
  (Raw.hasError node = false -> collectErrors node source errors = errors) /\
  (flagsSound node = true ->
   collectErrors node source errors =
     errors ++ (syntaxErrorAt <$>
                  List.filter isErrorKind (Raw.preorder node))) /\
  (forall m,
     message (syntaxErrorAt m) =
       "Syntax error at " +:+ pretty (row (Raw.startPosition m)) +:+ ":"
         +:+ pretty (column (Raw.startPosition m)) /\
     position (syntaxErrorAt m) = Raw.startPosition m /\
     severity (syntaxErrorAt m) = error).
Proof.
  split_and!.
  - apply collectErrors_flagged.
  - apply flaggedNodes_unfold.
  - intros He. rewrite collectErrors_unfold. by rewrite He.
  - intros Hs. rewrite collectErrors_flagged.
    by rewrite flagsSound_all_entered.
  - intros m. split_and!; [done | apply position_eta | done].
Qed.

Lemma collectErrors_reports_witness :
  flagsSound Fixtures.broken = true /\
  collectErrors Fixtures.broken "x = = 1" [] =
    [mkParseError "Syntax error at 0:4" (mkPosition 0 4) error].
Proof.
  split; [reflexivity|].
  destruct (collectErrors_reports Fixtures.broken "x = = 1" [])
    as (_ & _ & _ & H & _).
  rewrite (H eq_refl). reflexivity.
Defined.

(** ** [parse] *)

Section ParseFacts.

Variable grammar : string -> Raw.SyntaxNode.

(** [parse] always hands back a root that points at a live object of the
    new store, mirroring the root of the raw tree. *)
Lemma parse_root sourceCode h :
  let '(result, h') := parse grammar sourceCode h in
  ast result < length h' /\
  mirrors h' (ast result) (grammar sourceCode) /\
  source result = sourceCode /\ language result = PYTHON.
Proof.
  unfold parse.
  pose proof (convertNode_built sourceCode (grammar sourceCode) h) as B.
  destruct (convertNode (grammar sourceCode) sourceCode h) as [r h'].
  destruct B as (L & Rt & Old & F & Rp); simpl in *.
  inversion Rp; subst. unfold mirrors. by split_and!.
Qed.

Lemma parse_errors sourceCode h :
  errors (parse grammar sourceCode h).1 =
  syntaxErrorAt <$>
    List.filter isErrorKind (flaggedNodes (grammar sourceCode)).
Proof.
  unfold parse.
  destruct (convertNode (grammar sourceCode) sourceCode h) as [r h'].
  cbn [fst errors].
  rewrite (flaggedNodes_unfold (grammar sourceCode)).
  destruct (Raw.hasError (grammar sourceCode)) eqn:He; [|done].
  rewrite collectErrors_flagged, flaggedNodes_unfold, He. done.
Qed.

(** Whatever is reported has severity [error]. *)
Lemma parse_errors_severity sourceCode h :
  Forall (fun e => severity e = error)
         (errors (parse grammar sourceCode h).1).
Proof.
  rewrite parse_errors. apply Forall_fmap, Forall_forall. by intros.
Qed.

(** A tree with a node of kind ERROR below flagged ancestors is
    reported. *)
Lemma parse_reports_error_node sourceCode h m :
  m ∈ flaggedNodes (grammar sourceCode) -> isErrorKind m = true ->
  syntaxErrorAt m ∈ errors (parse grammar sourceCode h).1.
Proof.
  intros Hm He. rewrite parse_errors. apply list_elem_of_fmap_2.
  apply list_elem_of_In, filter_In. by rewrite <- list_elem_of_In.
Qed.

End ParseFacts.

Lemma flaggedNodes_preorder :
  forall node m, m ∈ flaggedNodes node -> m ∈ Raw.preorder node.
Proof.
  induction node as [n IH] using syntax_node_ind. intros m.
  rewrite flaggedNodes_unfold, preorder_children.
  destruct (Raw.hasError n); [|by intros ?%elem_of_nil].
  intros [->|Hm]%elem_of_cons; [apply list_elem_of_here|].
  apply list_elem_of_further.
  induction IH as [|c cs Hc _ IHcs]; [done|].
  rewrite fmap_cons in *. cbn [concat] in *.
  apply elem_of_app in Hm as [Hm|Hm]; apply elem_of_app; auto.
Qed.

(** C3, where it fails.  Whenever the raw tree of the source is flagged as
    containing a syntax error but has no node of kind ERROR, [parse] returns
    a live root and an empty list of diagnostics.  Such trees are what the
    grammar engine builds when it repairs the input with a MISSING token, as
    for [def f(:]: the collector only reports nodes of kind ERROR. *)
Theorem parse_missing_token_unreported (grammar : string -> Raw.SyntaxNode)
    (sourceCode : string) (h : Heap) :
  Raw.hasError (grammar sourceCode) = true ->
  existsb isErrorKind (Raw.preorder (grammar sourceCode)) = false ->
  let '(result, h') := parse grammar sourceCode h in
  ast result < length h' /\ errors result = [].
Proof.
  intros _ Hno.
  pose proof (parse_root grammar sourceCode h) as R.
  pose proof (parse_errors grammar sourceCode h) as E.
  destruct (parse grammar sourceCode h) as [result h'].
  split; [apply R|]. cbn [fst] in E. rewrite E.
  assert (Hf : List.filter isErrorKind (flaggedNodes (grammar sourceCode))
               = []); [|by rewrite Hf].
  destruct (List.filter isErrorKind (flaggedNodes (grammar sourceCode)))
    as [|m ms] eqn:Ef; [done|].
  assert (Hm : In m (List.filter isErrorKind
                       (flaggedNodes (grammar sourceCode))))
    by (rewrite Ef; by left).
  apply filter_In in Hm as [Hm He].
  apply list_elem_of_In, flaggedNodes_preorder, list_elem_of_In in Hm.
  assert (existsb isErrorKind (Raw.preorder (grammar sourceCode)) = true)
    by (apply existsb_exists; by exists m).
  congruence.
Qed.

Lemma parse_missing_token_unreported_witness :
  Raw.hasError (Fixtures.engine_def_f Fixtures.missing_paren_source) = true /\
  existsb isErrorKind
          (Raw.preorder (Fixtures.engine_def_f Fixtures.missing_paren_source))
    = false /\
  let '(result, h') :=
    parse Fixtures.engine_def_f Fixtures.missing_paren_source [] in
  ast result < length h' /\ errors result = [].
Proof.
  split; [reflexivity|]. split; [reflexivity|].
  exact (parse_missing_token_unreported Fixtures.engine_def_f
           Fixtures.missing_paren_source [] eq_refl eq_refl).
Defined.

(** ** Methods of a class against [extractFunctions] *)

Lemma methodEntity_functionEntity fuel h node :
  methodEntity fuel h node =
  with_body (text (deref h node)) <$> functionEntity fuel h node.
Proof.
  unfold methodEntity, functionEntity.
  by destruct (extractDecorators fuel h node).
Qed.

(** [extractMethods] on a body and [extractFunctions] on the same body list
    the same definitions and agree on every field but [body]. *)
Lemma extractMethods_extractFunctions fuel h bodyNode fs :
  extractFunctions fuel h bodyNode = Some fs ->
  exists ms, extractMethods fuel h (Some bodyNode) = Some ms /\
             Forall2 (fun m f => exists b, m = with_body b f) ms fs.
Proof.
  unfold extractFunctions, extractMethods.
  destruct (findNodesByType fuel h bodyNode "function_definition")
    as [nodes|]; [|done]. simpl.
  revert fs. induction nodes as [|x nodes IH]; intros fs H.
  - injection H as <-. exists []. by split.
  - cbn [mapM] in *. rewrite methodEntity_functionEntity.
    destruct (functionEntity fuel h x) as [f|]; [|done]. simpl in *.
    destruct (mapM (functionEntity fuel h) nodes) as [fs'|]; [|done].
    simpl in H. injection H as <-.
    destruct (IH fs' eq_refl) as (ms & -> & HF). simpl.
    eexists. split; [done|]. constructor; [by eexists | done].
Qed.

(** C5, at the class [class A] with the one method [m]. The class entity
    lists the method with the whole text of the definition as [body];
    [extractFunctions] on the class body gives the same entry with the text
    of the method's block. *)
Theorem extractClasses_methods_body :
  let '(ast, h) := convertNode Fixtures.class_module "" [] in
  exists cls classNode bodyNode m f,
    findNodesByType 20 h ast "class_definition" = Some [classNode] /\
    findChild h classNode "block" = Some bodyNode /\
    type (deref h bodyNode) = "block" /\
    extractClasses 20 h ast = Some [cls] /\
    PythonClass.methods cls = [m] /\
    extractFunctions 20 h bodyNode = Some [f] /\
    PythonFunction.body m = Fixtures.method_text /\
    PythonFunction.body f = "pass" /\
    m = with_body Fixtures.method_text f /\
    m <> f.
Proof.
  vm_compute. eexists _, _, _, _, _.
  split_and!; try reflexivity. intros [=].
Qed.

(** ** Parameters *)

Lemma last_index {A} (l : list A) : l !! (length l - 1) = last l.
Proof. by rewrite last_lookup, Nat.sub_1_r. Qed.

(** C7. [extractParameters] reads every immediate child of the parameter
    list as at most one entry: a plain identifier gives its text as name, a
    default parameter gives the name of its identifier child and the text of
    its last child as default value, a typed parameter gives the name of its
    identifier child and the text of its child of kind "type"; a child of
    any other kind, a typed parameter with a default value among them, gives
    no entry. *)
Theorem extractParameters_shapes (h : Heap) (parametersNode : option ref) :
  extractParameters h parametersNode =
    match parametersNode with
    | None => []
    | Some p => omap (parameterShape h) (children (deref h p))
    end /\
  (forall c,
     type (deref h c) = "identifier" ->
     parameterShape h c =
       Some (PythonParameter.mk (text (deref h c)) None None)) /\
  (forall c,
     type (deref h c) = "default_parameter" ->
     parameterShape h c =
       Some (PythonParameter.mk
               (orElse (textOf h (findChild h c "identifier")) "unknown")
               None
               (orAbsent (textOf h (last (children (deref h c))))))) /\
  (forall c,
     type (deref h c) = "typed_parameter" ->
     parameterShape h c =
       Some (PythonParameter.mk
               (orElse (textOf h (findChild h c "identifier")) "unknown")
               (orAbsent (textOf h (findChild h c "type")))
               None)) /\
  (forall c,
     type (deref h c) <> "identifier" ->
     type (deref h c) <> "default_parameter" ->
     type (deref h c) <> "typed_parameter" ->
     parameterShape h c = None) /\
  (forall c,
     type (deref h c) = "typed_default_parameter" ->
     parameterShape h c = None).
Proof.
  split_and!.
  - destruct parametersNode as [p|]; [|done]. unfold extractParameters.
    match goal with |- foldl ?f [] _ = _ => set (step := f) end.
    assert (H : forall l acc,
               foldl step acc
                 (List.filter
                    (fun child =>
                       String.eqb (type (deref h child)) "identifier"
                       || String.eqb (type (deref h child))
                                     "default_parameter"
                       || String.eqb (type (deref h child))
                                     "typed_parameter") l) =
               acc ++ omap (parameterShape h) l).
    { induction l as [|c cs IH]; intros acc.
      + by rewrite app_nil_r.
      + cbn [List.filter omap list_omap].
        pose proof (eq_refl : parameterShape h c = parameterShape h c) as S.
        unfold parameterShape at 2 in S. cbv zeta in S.
        destruct (String.eqb (type (deref h c)) "identifier") eqn:E1.
        { rewrite S. cbn [orb foldl]. rewrite IH. unfold step. rewrite E1.
          by rewrite <- app_assoc. }
        destruct (String.eqb (type (deref h c)) "default_parameter") eqn:E2.
        { rewrite S. cbn [orb foldl]. rewrite IH. unfold step.
          rewrite E1, E2, last_index. by rewrite <- app_assoc. }
        destruct (String.eqb (type (deref h c)) "typed_parameter") eqn:E3.
        { rewrite S. cbn [orb foldl]. rewrite IH. unfold step.
          rewrite E1, E2, E3. by rewrite <- app_assoc. }
        rewrite S. cbn [orb]. apply IH. }
    apply H.
  - intros c E. unfold parameterShape. by rewrite E.
  - intros c E. unfold parameterShape. by rewrite E.
  - intros c E. unfold parameterShape. by rewrite E.
  - intros c E1 E2 E3. unfold parameterShape.
    apply String.eqb_neq in E1, E2, E3. by rewrite E1, E2, E3.
  - intros c E. unfold parameterShape. by rewrite E.
Qed.

Lemma extractParameters_shapes_witness :
  extractParameters Fixtures.params_heap (Some 22) =
    [PythonParameter.mk "a" None None;
     PythonParameter.mk "x" None (Some "5");
     PythonParameter.mk "y" (Some "int") None] /\
  type (deref Fixtures.params_heap 20) = "typed_default_parameter" /\
  parameterShape Fixtures.params_heap 20 = None.
Proof.
  destruct (extractParameters_shapes Fixtures.params_heap (Some 22))
    as (E & _ & _ & _ & _ & D).
  split_and!; [rewrite E; vm_compute; reflexivity | reflexivity |].
  apply D. reflexivity.
Defined.

(** ** Decorators *)

Lemma ascend_S f h current decorators :
  ascend (S f) h current decorators =
  match current with
  | Some cur =>
      if String.eqb (type (deref h cur)) "decorated_definition"
      then ascend f h (parent (deref h cur))
                  (decorators ++ decoratorTexts h cur)
      else Some decorators
  | None => Some decorators
  end.
Proof. reflexivity. Qed.

Lemma ascend_chain h node ps :
  wrapperChain h node ps ->
  forall k acc,
    ascend (S (length ps + k)) h (parent (deref h node)) acc =
    Some (acc ++ concat (decoratorTexts h <$> ps)).
Proof.
  induction 1 as [node Hp|node p Hp Hty|node p ps Hp Hty _ IH];
    intros k acc; rewrite ascend_S, Hp.
  - simpl. by rewrite app_nil_r.
  - rewrite Hty. simpl. by rewrite app_nil_r.
  - rewrite Hty. cbn [length Nat.add]. rewrite (IH k).
    rewrite fmap_cons. cbn [concat]. by rewrite <- app_assoc.
Qed.

(** In a forest every node has a wrapper chain. *)
Lemma wrapperChain_exists b h roots :
  Forest b h roots ->
  forall c, b <= c < length h -> exists ps, wrapperChain h c ps.
Proof.
  intros F.
  assert (H : forall k c, length h - c <= k -> b <= c < length h ->
                          exists ps, wrapperChain h c ps).
  { induction k as [|k IH]; intros c Hk Hc; [lia|].
    destruct (parent (deref h c)) as [p|] eqn:Hp;
      [|exists []; by apply chain_root].
    destruct (ancestor_above b h roots c p F Hc) as [? ?];
      [by apply tc_once|].
    destruct (String.eqb (type (deref h p)) "decorated_definition") eqn:Hty;
      [|exists []; by eapply chain_stop].
    destruct (IH p) as [ps Hps]; [lia | lia |].
    exists (p :: ps). by eapply chain_step. }
  intros c Hc. by apply (H (length h - c)).
Qed.

(** C8. [extractDecorators] climbs from the node through its consecutive
    wrapper ancestors and returns the decorator texts of each level in turn,
    innermost wrapper first; where the parent is absent or of another kind
    the chain is empty and so is the result. *)
Theorem extractDecorators_innermost_first (h : Heap) (node : ref)
    (ps : list ref) :
  wrapperChain h node ps ->
  forall k,
    extractDecorators (S (length ps) + k) h node =
    Some (concat (decoratorTexts h <$> ps)).
Proof.
  intros Hc k. unfold extractDecorators.
  change (S (length ps) + k) with (S (length ps + k)).
  by rewrite (ascend_chain h node ps Hc k []).
Qed.

Lemma extractDecorators_innermost_first_witness :
  wrapperChain Fixtures.wrapped_heap 7 [8; 9] /\
  extractDecorators 3 Fixtures.wrapped_heap 7 = Some ["@inner"; "@outer"].
Proof.
  assert (C : wrapperChain Fixtures.wrapped_heap 7 [8; 9]).
  { apply (chain_step _ 7 8); [reflexivity | reflexivity |].
    apply (chain_step _ 8 9); [reflexivity | reflexivity |].
    apply (chain_stop _ 9 10); reflexivity. }
  split; [exact C|].
  exact (extractDecorators_innermost_first Fixtures.wrapped_heap 7 [8; 9]
           C 0).
Defined.

(** ** Imports *)

Lemma orAbsent_not_empty s : orAbsent s <> Some "".
Proof.
  destruct s as [t|]; [|done]. simpl.
  destruct (String.eqb t "") eqn:E; [done|].
  apply String.eqb_neq in E. congruence.
Qed.

Lemma orAbsent_id s : s <> Some "" -> orAbsent s = s.
Proof.
  destruct s as [t|]; [|done]. simpl. intros H.
  destruct (String.eqb t "") eqn:E; [|done].
  apply String.eqb_eq in E. congruence.
Qed.

Lemma orElse_empty s : orElse s "" = default "" s.
Proof.
  destruct s as [t|]; [|done]. simpl.
  destruct (String.eqb t "") eqn:E; [|done].
  apply String.eqb_eq in E. by subst.
Qed.

(** No entry of an import list carries an empty alias. *)
Lemma extractImportNames_alias h importListNode :
  Forall (fun n => ImportName.alias n <> Some "")
         (extractImportNames h importListNode).
Proof.
  destruct importListNode as [l|]; [|constructor]. unfold extractImportNames.
  match goal with |- Forall _ (foldl ?f [] _) => set (step := f) end.
  assert (H : forall cs acc,
             Forall (fun n => ImportName.alias n <> Some "") acc ->
             Forall (fun n => ImportName.alias n <> Some "")
                    (foldl step acc cs)).
  { induction cs as [|c cs IH]; intros acc Hacc; [done|].
    cbn [foldl]. apply IH. unfold step.
    destruct (String.eqb (type (deref h c)) "identifier").
    { apply Forall_app. split; [done|]. by repeat constructor. }
    destruct (String.eqb (type (deref h c)) "aliased_import"); [|done].
    apply Forall_app. split; [done|]. repeat constructor.
    apply orAbsent_not_empty. }
  apply H. constructor.
Qed.

(** Whatever [traverse] adds to [results] has the requested kind. *)
Lemma traverse_type fuel h ty :
  forall node results res,
    traverse fuel h ty node results = Some res ->
    Forall (fun x => type (deref h x) = ty) results ->
    Forall (fun x => type (deref h x) = ty) res.
Proof.
  induction fuel as [|f IH]; intros node results res H Hres; [done|].
  cbn [traverse] in H.
  assert (Hres1 : Forall (fun x => type (deref h x) = ty)
                    (if String.eqb (type (deref h node)) ty
                     then results ++ [node] else results)).
  { destruct (String.eqb (type (deref h node)) ty) eqn:E; [|done].
    apply Forall_app. split; [done|]. repeat constructor.
    by apply String.eqb_eq. }
  revert H Hres1.
  generalize (if String.eqb (type (deref h node)) ty
              then results ++ [node] else results).
  induction (children (deref h node)) as [|c cs IHcs]; intros acc H Hacc.
  - simpl in H. by injection H as <-.
  - cbn [forEach] in H.
    destruct (traverse f h ty c acc) as [acc'|] eqn:E; [|done].
    simpl in H. eapply IHcs; [exact H|]. by eapply IH.
Qed.

Lemma findNodesByType_type fuel h ast ty res :
  findNodesByType fuel h ast ty = Some res ->
  Forall (fun x => type (deref h x) = ty) res.
Proof. intros H. eapply traverse_type; [exact H | constructor]. Qed.

(** Every entity returned by [extractImports] comes from one statement
    node.  For a direct import, [module] is the name of the first entry of
    [names] (the empty string when there is none) and [alias] is that
    entry's alias (absent when there is none); for a from-import, [module]
    is the text of the first child that is a dotted name or a relative
    import (the empty string when there is none) and [alias] is absent. *)
Lemma extractImports_module_alias (fuel : nat) (h : Heap) (ast : ref)
    (out : list PythonImport.t) :
  extractImports fuel h ast = Some out ->
  forall e, e ∈ out ->
    exists node,
      e = importEntity h node /\
      PythonImport.names e =
        extractImportNames h (findChild h node "import_list") /\
      PythonImport.startLine e = row (startPosition (deref h node)) /\
      match PythonImport.type e with
      | PythonImport.import =>
          type (deref h node) = "import_statement" /\
          PythonImport.module e =
            default "" (ImportName.name <$> head (PythonImport.names e)) /\
          PythonImport.alias e =
            head (PythonImport.names e) ≫= ImportName.alias
      | PythonImport.from =>
          type (deref h node) = "import_from_statement" /\
          PythonImport.module e =
            default ""
              (textOf h
                 (List.find
                    (fun child =>
                       String.eqb (type (deref h child)) "dotted_name"
                       || String.eqb (type (deref h child)) "relative_import")
                    (children (deref h node)))) /\
          PythonImport.alias e = None
      end.
Proof.
  unfold extractImports. intros H e He.
  destruct (findNodesByType fuel h ast "import_statement") as [ds|] eqn:Ed;
    [|done].
  destruct (findNodesByType fuel h ast "import_from_statement") as [fs|]
    eqn:Ef; [|done].
  simpl in H. injection H as <-.
  apply list_elem_of_fmap in He as (node & -> & Hnode).
  exists node. unfold importEntity.
  destruct (String.eqb (type (deref h node)) "import_from_statement") eqn:E.
  - cbn. split_and!; try done.
    + by apply String.eqb_eq.
    + apply orElse_empty.
  - cbn. split_and!; try done.
    + apply elem_of_app in Hnode as [Hd|Hf].
      * apply findNodesByType_type in Ed.
        by apply (proj1 (Forall_forall _ _) Ed).
      * apply findNodesByType_type in Ef.
        pose proof (proj1 (Forall_forall _ _) Ef node Hf) as Hty.
        apply String.eqb_neq in E. done.
    + rewrite orElse_empty. by rewrite head_lookup.
    + rewrite head_lookup. apply orAbsent_id.
      pose proof (extractImportNames_alias h (findChild h node "import_list"))
        as Hal.
      destruct (extractImportNames h (findChild h node "import_list"))
        as [|n ns]; [done|].
      inversion Hal; subst. done.
Qed.

(** Without a child of kind "import_list" a statement yields no names; a
    direct import then has the empty string as [module] and no [alias]. *)
Lemma importEntity_without_import_list h node :
  findChild h node "import_list" = None ->
  PythonImport.names (importEntity h node) = [] /\
  PythonImport.alias (importEntity h node) = None /\
  (String.eqb (type (deref h node)) "import_from_statement" = false ->
   PythonImport.module (importEntity h node) = "").
Proof.
  intros H. unfold importEntity. rewrite H.
  destruct (String.eqb (type (deref h node)) "import_from_statement");
    by split_and!.
Qed.

(** C6, at the source [import one, two].  The statement node has the two
    dotted names as immediate children and no child of kind "import_list",
    the only place where [extractImports] looks for names: the entity it
    returns has no names and the empty string as [module], not the first
    target [one]. *)
Theorem extractImports_multi_target :
  let '(ast, h) :=
    convertNode Fixtures.import_one_two Fixtures.import_one_two_source [] in
  exists statement,
    findNodesByType 20 h ast "import_statement" = Some [statement] /\
    text (deref h statement) = "import one, two" /\
    findChild h statement "import_list" = None /\
    extractImports 20 h ast =
      Some [PythonImport.mk PythonImport.import "" [] None 0].
Proof.
  vm_compute. eexists. split_and!; reflexivity.
Qed.

Lemma extractImports_preorder fuel h ast rs :
  preorder fuel h ast = Some rs ->
  extractImports fuel h ast =
    Some ((importEntity h <$> List.filter (isDirectImport h) rs)
            ++ (importEntity h <$> List.filter (isFromImport h) rs)).
Proof.
  intros Hpre. unfold extractImports.
  rewrite !(findNodesByType_preorder _ _ _ _ _ Hpre). simpl.
  by rewrite fmap_app.
Qed.

(** On a tree built by [convertNode], [extractImports] returns as soon as
    the fuel covers the height of the tree. *)
Lemma extractImports_returns source n h0 k :
  let '(r, h) := convertNode n source h0 in
  is_Some (extractImports (Raw.height n + k) h r).
Proof.
  pose proof (convertNode_built source n h0) as B.
  destruct (convertNode n source h0) as [r h].
  destruct (built_preorder _ _ _ _ B) as (rs & E & _).
  rewrite (extractImports_preorder _ _ _ _ (E k)). by eexists.
Qed.

(** C9. [extractImports] lists the direct imports first, in pre-order, and
    the from-imports after them, in pre-order: whatever the order of the
    statements in the source, every direct import comes before every
    from-import in the result. *)
Theorem extractImports_direct_first (fuel : nat) (h : Heap) (ast : ref)
    (rs : list ref) :
  preorder fuel h ast = Some rs ->
  let directs := List.filter (isDirectImport h) rs in
  let froms := List.filter (isFromImport h) rs in
  extractImports fuel h ast =
    Some ((importEntity h <$> directs) ++ (importEntity h <$> froms)) /\
  Forall (fun e => PythonImport.type e = PythonImport.import)
         (importEntity h <$> directs) /\
  Forall (fun e => PythonImport.type e = PythonImport.from)
         (importEntity h <$> froms) /\
  forall i j d f out,
    extractImports fuel h ast = Some out ->
    directs !! i = Some d -> froms !! j = Some f ->
    out !! i = Some (importEntity h d) /\
    out !! (length directs + j) = Some (importEntity h f) /\
    i < length directs + j.
Proof.
  intros Hpre directs froms.
  pose proof (extractImports_preorder _ _ _ _ Hpre) as E.
  fold directs froms in E.
  split_and!; [done | | |].
  - apply Forall_fmap, Forall_forall. intros x Hx.
    apply list_elem_of_In, filter_In in Hx as [_ Hx].
    unfold isDirectImport in Hx. apply String.eqb_eq in Hx.
    simpl. unfold importEntity. by rewrite Hx.
  - apply Forall_fmap, Forall_forall. intros x Hx.
    apply list_elem_of_In, filter_In in Hx as [_ Hx].
    unfold isFromImport in Hx. simpl. unfold importEntity. by rewrite Hx.
  - intros i j d f out Hout Hd Hf. rewrite E in Hout. injection Hout as <-.
    pose proof (lookup_lt_Some _ _ _ Hd) as Hi.
    split_and!; [| |lia].
    + rewrite lookup_app_l by (by rewrite length_fmap).
      by rewrite list_lookup_fmap, Hd.
    + rewrite lookup_app_r by (rewrite length_fmap; lia).
      rewrite length_fmap, Nat.add_comm, Nat.add_sub.
      by rewrite list_lookup_fmap, Hf.
Qed.

Lemma extractImports_direct_first_witness :
  preorder 20 Fixtures.imports_heap 20 = Some Fixtures.imports_preorder /\
  extractImports 20 Fixtures.imports_heap 20 =
    Some [Fixtures.direct_entity; Fixtures.from_entity] /\
  PythonImport.startLine Fixtures.direct_entity = 1%N /\
  PythonImport.startLine Fixtures.from_entity = 0%N.
Proof.
  assert (P : preorder 20 Fixtures.imports_heap 20 =
              Some Fixtures.imports_preorder) by (vm_compute; reflexivity).
  split; [exact P|].
  destruct (extractImports_direct_first 20 Fixtures.imports_heap 20 _ P)
    as (E & _).
  split_and!; [|reflexivity..]. rewrite E. vm_compute. reflexivity.
Defined.

(** ** Language detection *)

Lemma languageTag_inj a b : languageTag a = languageTag b -> a = b.
Proof. destruct a, b; simpl; intros H; try reflexivity; discriminate H. Qed.

Lemma elem_of_languages lang : lang ∈ languages.
Proof.
  destruct lang; unfold languages;
    repeat first [apply list_elem_of_here | apply list_elem_of_further].
Qed.

Lemma includesLanguage_elem l t : includesLanguage l t = true <-> t ∈ l.
Proof.
  unfold includesLanguage. rewrite existsb_exists. split.
  - intros (x & Hx & E). apply String.eqb_eq, languageTag_inj in E.
    subst. by apply list_elem_of_In.
  - intros H. exists t. split; [by apply list_elem_of_In|].
    apply String.eqb_refl.
Qed.

Section DetectorFacts.

Variable extname : string -> string.
Variable toLowerCase : string -> string.
Variable detectFromContent : string -> option SupportedLanguage.

(** X11. The extension table answers for every extension it lists, and for no
    other: [detectFromExtension] returns a language exactly when the
    lower-cased extension of the path is one of that language's extensions
    (no extension is listed under two languages), and [null] exactly when no
    language lists it. *)
Theorem detectFromExtension_table (filePath : string) :
  (forall lang,
     detectFromExtension extname toLowerCase filePath = Some lang <->
     toLowerCase (extname filePath) ∈ getExtensions lang) /\
  (detectFromExtension extname toLowerCase filePath = None <->
   forall lang, toLowerCase (extname filePath) ∉ getExtensions lang).
Proof.
  unfold detectFromExtension. generalize (toLowerCase (extname filePath)).
  intros ext. cbv zeta.
  assert (Hfwd : forall lang,
             ext ∈ getExtensions lang ->
             List.find
               (fun lang0 =>
                  existsb (fun e => String.eqb e ext)
                          (LanguageInfo.extensions (LANGUAGE_MAP lang0)))
               languages = Some lang).
  { intros lang H. unfold getExtensions in H.
    destruct lang; cbn in H;
      repeat (apply elem_of_cons in H as [->|H]; [reflexivity|]);
      by apply elem_of_nil in H. }
  assert (Hbwd : forall lang,
             List.find
               (fun lang0 =>
                  existsb (fun e => String.eqb e ext)
                          (LanguageInfo.extensions (LANGUAGE_MAP lang0)))
               languages = Some lang ->
             ext ∈ getExtensions lang).
  { intros lang H. apply find_some in H as [_ H].
    apply existsb_exists in H as (e & He & E).
    apply String.eqb_eq in E. subst. by apply list_elem_of_In. }
  split.
  - intros lang. split; [apply Hbwd | apply Hfwd].
  - split.
    + intros Hn lang Hin. apply Hfwd in Hin. congruence.
    + intros Hn.
      destruct (List.find _ languages) as [lang|] eqn:E; [|done].
      by destruct (Hn lang (Hbwd lang eq_refl)).
Qed.

(** X12. The extension decides before the content is looked at: a path with a
    listed extension is detected as that extension's language whatever the
    file contains, and only a path without one falls back on the content. *)
Theorem detect_extension_first (filePath content : string)
    (lang : SupportedLanguage) :
  toLowerCase (extname filePath) ∈ getExtensions lang ->
  detect extname toLowerCase detectFromContent filePath content
    = Some lang /\
  forall otherPath,
    (forall l, toLowerCase (extname otherPath) ∉ getExtensions l) ->
    detect extname toLowerCase detectFromContent otherPath content
      = detectFromContent content.
Proof.
  intros H. split.
  - unfold detect.
    destruct (detectFromExtension_table filePath) as [Hs _].
    apply Hs in H. by rewrite H.
  - intros otherPath Hn. unfold detect.
    destruct (detectFromExtension_table otherPath) as [_ Hnone].
    apply Hnone in Hn. by rewrite Hn.
Qed.

End DetectorFacts.

Lemma detect_extension_first_witness :
  Fixtures.fromLastDot "tool.py" ∈ getExtensions PYTHON /\
  detect Fixtures.fromLastDot id (fun _ => Some JAVA)
         "tool.py" "public class Tool {}" = Some PYTHON.
Proof.
  assert (H : Fixtures.fromLastDot "tool.py" ∈ getExtensions PYTHON)
    by (vm_compute; apply list_elem_of_here).
  split; [exact H|].
  exact (proj1 (detect_extension_first Fixtures.fromLastDot id
                  (fun _ => Some JAVA)
                  "tool.py" "public class Tool {}" PYTHON H)).
Defined.

(** *** Empty selections *)

Lemma filter_empty {A} (f : A -> bool) (l : list A) :
  List.filter f l = [] <-> forall x, x ∈ l -> f x = false.
Proof.
  induction l as [|a l IH]; simpl.
  - split; [by intros _ x ?%elem_of_nil | done].
  - destruct (f a) eqn:E.
    + split; [done|]. intros H. specialize (H a (list_elem_of_here _ _)).
      congruence.
    + rewrite IH. split.
      * intros H x [->|Hx]%elem_of_cons; auto.
      * intros H x Hx. apply H. by apply list_elem_of_further.
Qed.


(** X14. [isSupported] accepts exactly the seven string values of the enum, each
    of which names one language; the display names of the language table
    ("Python", "C#", ...) are not among them, so a language given by its
    display name is rejected. *)
Theorem isSupported_tags :
  (forall s, isSupported s = true <-> exists lang, languageTag lang = s) /\
  (forall a b, languageTag a = languageTag b -> a = b) /\
  (forall lang,
     isSupported (LanguageInfo.name (getLanguageInfo lang)) = false) /\
  isSupported "" = false.
Proof.
  split_and!.
  - intros s. unfold isSupported. rewrite existsb_exists. split.
    + intros (v & Hv & E). apply String.eqb_eq in E. subst v.
      apply list_elem_of_In, list_elem_of_fmap in Hv as (lang & -> & _).
      by exists lang.
    + intros (lang & <-). exists (languageTag lang).
      split; [|apply String.eqb_refl].
      apply list_elem_of_In, list_elem_of_fmap_2, elem_of_languages.
  - apply languageTag_inj.
  - by intros [].
  - reflexivity.
Qed.

(** X15. The compatibility matrix: [areCompatible source target] holds exactly
    when [target] is listed under [source]; no language is compatible with
    itself; every language has at least one compatible target; Go is no
    one's target; and the relation is not symmetric (Go translates to Java,
    Java does not translate to Go). *)
Theorem areCompatible_matrix :
  (forall source target,
     areCompatible source target = true <->
     target ∈ compatibilityMatrix source) /\
  (forall lang, areCompatible lang lang = false) /\
  (forall source, exists target, areCompatible source target = true) /\
  (forall source, areCompatible source GO = false) /\
  (forall target, target <> GO ->
     exists source, areCompatible source target = true) /\
  areCompatible GO JAVA = true /\ areCompatible JAVA GO = false.
Proof.
  split_and!.
  - intros source target. apply includesLanguage_elem.
  - by intros [].
  - intros []; first [by exists JAVA | by exists PYTHON].
  - by intros [].
  - intros [] H; try done;
      first [by exists JAVA | by exists PYTHON | by exists CSHARP].
  - reflexivity.
  - reflexivity.
Qed.

(** X16. The pair listing of the command line: the targets offered for a source
    language are the languages of its matrix row, in the order of the enum;
    the test that excludes the source itself changes nothing; the list is
    never empty, so every language gets its line; and the target choices of
    the interactive mode are never empty and never offer the source. *)
Theorem compatibleTargets_listing (sourceLang : SupportedLanguage) :
  compatibleTargets sourceLang =
    List.filter (areCompatible sourceLang) getSupportedLanguages /\
  (forall target,
     target ∈ compatibleTargets sourceLang <->
     target ∈ compatibilityMatrix sourceLang) /\
  compatibleTargets sourceLang <> [] /\
  (sourceLang ∉ compatibleTargets sourceLang) /\
  targetChoices None <> [] /\
  targetChoices (Some sourceLang) <> [] /\
  (forall choice, choice ∈ targetChoices (Some sourceLang) ->
     snd choice <> sourceLang /\
     fst choice = LanguageInfo.name (getLanguageInfo (snd choice))).
Proof.
  assert (E : compatibleTargets sourceLang =
              List.filter (areCompatible sourceLang) getSupportedLanguages)
    by (by destruct sourceLang).
  assert (Hin : forall target,
             target ∈ compatibleTargets sourceLang <->
             target ∈ compatibilityMatrix sourceLang).
  { intros target. rewrite E, list_elem_of_In, filter_In.
    unfold areCompatible.
    rewrite <- list_elem_of_In, includesLanguage_elem.
    split; [tauto|]. intros H. split; [apply elem_of_languages | done]. }
  assert (Hself : sourceLang ∉ compatibleTargets sourceLang).
  { rewrite Hin. rewrite <- includesLanguage_elem. by destruct sourceLang. }
  split_and!; try done.
  - by destruct sourceLang.
  - by destruct sourceLang.
  - intros [nm lang] Hc. unfold targetChoices in Hc.
    apply list_elem_of_fmap in Hc as (l & [= -> ->] & Hl). cbn [fst snd].
    split; [|done]. intros ->. by apply Hself.
Qed.

(** ** The normalized tree and the raw tree, node by node *)

Lemma lookup_deref (h : Heap) a : a < length h -> h !! a = Some (deref h a).
Proof.
  intros H. destruct (lookup_lt_is_Some_2 h a H) as [o Ho].
  by rewrite (deref_lookup _ _ _ Ho).
Qed.

Lemma Repr_mirrors h r n : Repr h r n -> mirrors h r n.
Proof. intros H. inversion H; subst. by split_and!. Qed.

Lemma Repr_children h r n :
  Repr h r n -> Forall2 (Repr h) (children (deref h r)) (Raw.children n).
Proof. intros H. by inversion H. Qed.

(** The pre-order enumeration pairs every object with the raw node whose
    subtree it represents. *)
Lemma preorder_Repr_all h :
  forall n r fuel, Repr h r n -> Raw.height n <= fuel ->
    exists rs, preorder fuel h r = Some rs /\
               Forall2 (Repr h) rs (Raw.preorder n).
Proof.
  induction n as [n IH] using syntax_node_ind. intros r fuel HR Hf.
  rewrite height_children in Hf. destruct fuel as [|f]; [lia|].
  pose proof (Repr_children _ _ _ HR) as Hkids.
  assert (Hh : Forall (fun c => Raw.height c <= f) (Raw.children n)).
  { apply Forall_forall. intros c Hc.
    pose proof (max_list_elem_of_le (Raw.height c)
                  (Raw.height <$> Raw.children n)
                  (list_elem_of_fmap_2 _ _ _ Hc)). lia. }
  assert (exists rss,
             mapM (preorder f h) (children (deref h r)) = Some rss /\
             Forall2 (Repr h) (concat rss)
                     (concat (Raw.preorder <$> Raw.children n))) as
      (rss & E & M).
  { clear Hf. revert IH Hh.
    induction Hkids as [|k c ks cs Hkc _ IHk]; intros IH Hh.
    - exists []. split; [done | constructor].
    - inversion IH as [|? ? IHc IHcs]; inversion Hh as [|? ? Hhc Hhcs]; subst.
      destruct (IHc k f Hkc Hhc) as (rs1 & E1 & M1).
      destruct IHk as (rss & E2 & M2); [done..|].
      exists (rs1 :: rss). split; [by apply mapM_cons_Some|].
      rewrite fmap_cons. cbn [concat]. by apply Forall2_app. }
  exists (r :: concat rss). split.
  - cbn [preorder]. by rewrite E.
  - rewrite preorder_children. by constructor.
Qed.

Lemma built_preorder_Repr n h0 r h :
  built n h0 (r, h) ->
  exists rs, (forall k, preorder (Raw.height n + k) h r = Some rs) /\
             Forall2 (Repr h) rs (Raw.preorder n).
Proof.
  intros (L & Rt & Old & F & Rp); simpl in *.
  destruct (preorder_Repr_all h n r (Raw.height n) Rp (le_n _))
    as (rs & E & M).
  exists rs. split; [|done]. intros k.
  eapply preorder_fuel_mono; [exact E | lia].
Qed.

(** Selecting by kind on both sides keeps the pairing. *)
Lemma Forall2_Repr_filter h (p : string -> bool) rs ms :
  Forall2 (Repr h) rs ms ->
  Forall2 (Repr h)
          (List.filter (fun x => p (type (deref h x))) rs)
          (List.filter (fun m => p (Raw.type m)) ms).
Proof.
  induction 1 as [|x m rs ms Hxm _ IH]; [constructor|].
  cbn [List.filter]. destruct (Repr_mirrors _ _ _ Hxm) as (-> & _).
  destruct (p (Raw.type m)); [by constructor | done].
Qed.

(** In a forest the enumeration below any node returns once the fuel
    exceeds the node's address. *)
Lemma preorder_returns b h roots :
  Forest b h roots ->
  forall fuel a, b <= a -> a < fuel -> is_Some (preorder fuel h a).
Proof.
  intros F. induction fuel as [|f IH]; intros a Hb Ha; [lia|].
  cbn [preorder].
  assert (is_Some (mapM (preorder f h) (children (deref h a)))) as [rss E].
  { apply mapM_is_Some, Forall_forall. intros c Hc.
    destruct (F_down _ _ _ F a c Hb Hc) as [Hr _]. apply IH; lia. }
  rewrite E. by eexists.
Qed.

(** What is enumerated below a node of the tree is enumerated from the
    root. *)
Lemma preorder_subtree_incl fuel h r rs :
  preorder fuel h r = Some rs ->
  forall fuel' c sub, c ∈ rs -> preorder fuel' h c = Some sub ->
    forall x, x ∈ sub -> x ∈ rs.
Proof.
  intros Hpre. induction fuel' as [|f IH]; intros c sub Hc Hsub x Hx; [done|].
  cbn [preorder] in Hsub.
  destruct (mapM (preorder f h) (children (deref h c))) as [rss|] eqn:E;
    [|done].
  simpl in Hsub. injection Hsub as <-. apply mapM_Some in E.
  apply elem_of_cons in Hx as [->|Hx]; [done|].
  apply elem_of_concat in Hx as (rs' & Hx & Hrs').
  apply list_elem_of_lookup in Hrs' as [i Hi].
  destruct (Forall2_lookup_r _ _ _ _ _ E Hi) as (k & Hk & Hprek).
  eapply (IH k rs'); [|exact Hprek | exact Hx].
  eapply preorder_children_closed; [exact Hpre | exact Hc |].
  by eapply list_elem_of_lookup_2.
Qed.

(** X1. [convertNode] leaves the objects of the store it is given as they are:
    the new store is the old one followed by exactly one new object per node
    of the raw tree, the last of which is the root it returns. *)
Theorem convertNode_frame (n : Raw.SyntaxNode) (source : string)
    (h0 : Heap) :
  let '(r, h) := convertNode n source h0 in
  (exists new, h = h0 ++ new /\ length new = Raw.size n) /\
  (forall a, a < length h0 -> h !! a = h0 !! a) /\
  r = length h0 + Raw.size n - 1 /\
  length h0 <= r < length h.
Proof.
  pose proof (convertNode_built source n h0) as B.
  destruct (convertNode n source h0) as [r h].
  destruct B as (L & Rt & Old & F & Rp); simpl in *.
  assert (Hl : forall a, a < length h0 -> h !! a = h0 !! a).
  { intros a Ha. rewrite (lookup_deref h a) by lia.
    rewrite (lookup_deref h0 a) by lia. by rewrite Old. }
  pose proof (size_children n) as Hs.
  split_and!; [| done | lia | lia | lia].
  exists (drop (length h0) h). split.
  - apply list_eq. intros i. destruct (decide (i < length h0)) as [Hi|Hi].
    + rewrite lookup_app_l by done. by apply Hl.
    + rewrite lookup_app_r by lia. rewrite lookup_drop. f_equal. lia.
  - rewrite length_drop. lia.
Qed.

(** ** [findNodesByType] *)

(** X2. On the tree built from a raw tree, [findNodesByType] returns, each once
    and in pre-order, the objects that stand for the raw nodes of the
    requested kind: the result is paired one to one with the raw nodes of
    that kind, and each object heads a subtree mirroring its raw node. *)
Theorem findNodesByType_mirrors (n : Raw.SyntaxNode) (source : string)
    (h0 : Heap) (nodeType : string) :
  let '(r, h) := convertNode n source h0 in
  exists res,
    (forall k, findNodesByType (Raw.height n + k) h r nodeType = Some res) /\
    NoDup res /\
    length res = length (rawNodesByType n nodeType) /\
    Forall2 (Repr h) res (rawNodesByType n nodeType).
Proof.
  pose proof (convertNode_built source n h0) as B.
  destruct (convertNode n source h0) as [r h].
  destruct (built_preorder_Repr _ _ _ _ B) as (rs & E & M).
  exists (List.filter (fun x => String.eqb (type (deref h x)) nodeType) rs).
  pose proof (Forall2_Repr_filter h (fun t => String.eqb t nodeType) _ _ M)
    as HF.
  split_and!.
  - intros k. by apply findNodesByType_preorder.
  - apply NoDup_ListNoDup, List.NoDup_filter, NoDup_ListNoDup.
    eapply built_NoDup; [exact B | exact (E 0)].
  - by apply Forall2_length in HF.
  - exact HF.
Qed.

(** X3. The search is not scoped: started at any node of the tree it returns,
    and everything it finds there is also found by the search from the
    root. *)
Theorem findNodesByType_unscoped (n : Raw.SyntaxNode) (source : string)
    (h0 : Heap) (nodeType : string) :
  let '(r, h) := convertNode n source h0 in
  exists rs res,
    (forall k, preorder (Raw.height n + k) h r = Some rs) /\
    (forall k, findNodesByType (Raw.height n + k) h r nodeType = Some res) /\
    forall c, c ∈ rs ->
      forall k, exists sub,
        findNodesByType (S (length h) + k) h c nodeType = Some sub /\
        forall x, x ∈ sub -> x ∈ res.
Proof.
  pose proof (convertNode_built source n h0) as B.
  destruct (convertNode n source h0) as [r h].
  destruct (built_preorder _ _ _ _ B) as (rs & E & M).
  exists rs, (List.filter
                (fun x => String.eqb (type (deref h x)) nodeType) rs).
  split_and!; [done | |].
  - intros k. by apply findNodesByType_preorder.
  - intros c Hc k.
    pose proof (built_range _ _ _ _ _ _ B (E 0) c Hc) as Hr.
    destruct B as (L & Rt & Old & F & Rp); simpl in *.
    destruct (preorder_returns _ _ _ F (S (length h) + k) c) as [sub Hsub];
      [lia | lia |].
    eexists. split; [by apply findNodesByType_preorder|].
    intros x Hx. apply list_elem_of_In, filter_In in Hx as [Hx Hty].
    apply list_elem_of_In, filter_In. split; [|done].
    apply list_elem_of_In.
    eapply (preorder_subtree_incl _ _ _ _ (E 0)); [exact Hc | exact Hsub |].
    by apply list_elem_of_In.
Qed.

(** ** Entities against the raw tree *)

Lemma Forall2_Repr_find h (p : string -> bool) ks ms :
  Forall2 (Repr h) ks ms ->
  option_Forall2 (Repr h)
    (List.find (fun c => p (type (deref h c))) ks)
    (List.find (fun m => p (Raw.type m)) ms).
Proof.
  induction 1 as [|x m ks ms Hxm _ IH]; [constructor|].
  cbn [List.find]. destruct (Repr_mirrors _ _ _ Hxm) as (-> & _).
  destruct (p (Raw.type m)); [by constructor | done].
Qed.

Lemma Repr_findChild h x m ty :
  Repr h x m ->
  option_Forall2 (Repr h) (findChild h x ty) (rawFindChild m ty).
Proof.
  intros H. unfold findChild, rawFindChild.
  apply (Forall2_Repr_find h (fun t => String.eqb t ty)).
  by apply Repr_children.
Qed.

Lemma option_Repr_text h o om :
  option_Forall2 (Repr h) o om -> textOf h o = Raw.text <$> om.
Proof.
  intros [x m H|]; [|done]. simpl.
  destruct (Repr_mirrors _ _ _ H) as (_ & _ & _ & ->). done.
Qed.

Lemma Forall2_Repr_texts h ks ms :
  Forall2 (Repr h) ks ms ->
  (fun c => text (deref h c)) <$> ks = Raw.text <$> ms.
Proof.
  induction 1 as [|x m ks ms Hxm _ IH]; [done|].
  rewrite !fmap_cons, IH.
  destruct (Repr_mirrors _ _ _ Hxm) as (_ & _ & _ & ->). done.
Qed.

Lemma Forall2_Repr_async h ks ms :
  Forall2 (Repr h) ks ms ->
  existsb (fun c => String.eqb (text (deref h c)) "async") ks =
  existsb (fun m => String.eqb (Raw.text m) "async") ms.
Proof.
  induction 1 as [|x m ks ms Hxm _ IH]; [done|].
  cbn [existsb]. rewrite IH.
  destruct (Repr_mirrors _ _ _ Hxm) as (_ & _ & _ & ->). done.
Qed.

Lemma extractParameters_omap h p :
  extractParameters h (Some p) =
  omap (parameterShape h) (children (deref h p)).
Proof.
  unfold extractParameters.
  match goal with |- foldl ?f [] _ = _ => set (step := f) end.
  assert (H : forall l acc,
             foldl step acc
               (List.filter
                  (fun child =>
                     String.eqb (type (deref h child)) "identifier"
                     || String.eqb (type (deref h child)) "default_parameter"
                     || String.eqb (type (deref h child)) "typed_parameter")
                  l) =
             acc ++ omap (parameterShape h) l).
  { induction l as [|c cs IH]; intros acc; [by rewrite app_nil_r|].
    cbn [List.filter omap list_omap].
    pose proof (eq_refl : parameterShape h c = parameterShape h c) as S.
    unfold parameterShape at 2 in S. cbv zeta in S.
    destruct (String.eqb (type (deref h c)) "identifier") eqn:E1;
      [|destruct (String.eqb (type (deref h c)) "default_parameter") eqn:E2;
        [|destruct (String.eqb (type (deref h c)) "typed_parameter") eqn:E3]];
      rewrite S; cbn [orb foldl]; rewrite IH; try done;
      unfold step; rewrite ?E1, ?E2, ?E3, ?last_index;
      by rewrite <- app_assoc. }
  apply H.
Qed.

Lemma parameterShape_Repr h c m :
  Repr h c m -> parameterShape h c = rawParameterShape m.
Proof.
  intros H. unfold parameterShape, rawParameterShape. cbv zeta.
  destruct (Repr_mirrors _ _ _ H) as (-> & _ & _ & ->).
  rewrite !(option_Repr_text _ _ _ (Repr_findChild h c m _ H)).
  rewrite (option_Repr_text h _ _
             (Forall2_last _ _ _ (Repr_children _ _ _ H))).
  done.
Qed.

Lemma extractParameters_Repr h o om :
  option_Forall2 (Repr h) o om ->
  extractParameters h o = rawParameters om.
Proof.
  intros [p m H|]; [|done]. rewrite extractParameters_omap. simpl.
  pose proof (Repr_children _ _ _ H) as Hk.
  induction Hk as [|c mc cs ms Hc _ IH]; [done|].
  cbn [omap list_omap]. rewrite (parameterShape_Repr _ _ _ Hc).
  by rewrite IH.
Qed.

Lemma extractSuperclasses_Repr h x m :
  Repr h x m ->
  extractSuperclasses h (findChild h x "argument_list") = rawSuperclasses m.
Proof.
  intros H. unfold rawSuperclasses.
  destruct (Repr_findChild h x m "argument_list" H) as [a ma Ha|]; [|done].
  unfold extractSuperclasses.
  apply Forall2_Repr_texts.
  apply (Forall2_Repr_filter h
           (fun t => String.eqb t "identifier" || String.eqb t "attribute")).
  by apply Repr_children.
Qed.

Lemma functionEntity_Repr fuel h x m ds :
  Repr h x m -> extractDecorators fuel h x = Some ds ->
  exists f, functionEntity fuel h x = Some f /\ functionMirrors f m /\
            PythonFunction.decorators f = ds.
Proof.
  intros H Hd. unfold functionEntity. rewrite Hd. simpl.
  eexists. split; [done|]. split; [|done].
  destruct (Repr_mirrors _ _ _ H) as (_ & Hs & He & _).
  unfold functionMirrors; cbn.
  rewrite !(option_Repr_text _ _ _ (Repr_findChild h x m _ H)).
  rewrite (extractParameters_Repr _ _ _ (Repr_findChild h x m _ H)).
  rewrite Hs, He.
  by rewrite (Forall2_Repr_async _ _ _ (Repr_children _ _ _ H)).
Qed.

Lemma methodEntity_Repr fuel h x m ds :
  Repr h x m -> extractDecorators fuel h x = Some ds ->
  exists f, methodEntity fuel h x = Some f /\ methodMirrors f m /\
            PythonFunction.decorators f = ds.
Proof.
  intros H Hd. unfold methodEntity. rewrite Hd. simpl.
  eexists. split; [done|]. split; [|done].
  destruct (Repr_mirrors _ _ _ H) as (_ & Hs & He & Ht).
  unfold methodMirrors; cbn.
  rewrite !(option_Repr_text _ _ _ (Repr_findChild h x m _ H)).
  rewrite (extractParameters_Repr _ _ _ (Repr_findChild h x m _ H)).
  rewrite Hs, He, Ht.
  by rewrite (Forall2_Repr_async _ _ _ (Repr_children _ _ _ H)).
Qed.

Lemma extractDecorators_returns b h roots :
  Forest b h roots ->
  forall x, b <= x < length h ->
    forall k, is_Some (extractDecorators (S (length h) + k) h x).
Proof.
  intros F x Hx k. unfold extractDecorators.
  apply (ascend_terminates _ _ _ F).
  destruct (parent (deref h x)) as [p|] eqn:Hp; [|lia].
  destruct (ancestor_above _ _ _ x p F Hx) as [? ?]; [by apply tc_once|].
  lia.
Qed.

Lemma built_preorder_at n h0 r h k :
  built n h0 (r, h) ->
  exists rs, preorder (S (length h) + k) h r = Some rs /\
             Forall2 (Repr h) rs (Raw.preorder n) /\
             forall x, x ∈ rs -> length h0 <= x < length h.
Proof.
  intros B. destruct (built_preorder_Repr _ _ _ _ B) as (rs & E & M).
  exists rs. split_and!; [| done |].
  - pose proof (height_le_size n) as Hh.
    destruct B as (L & _); simpl in L.
    replace (S (length h) + k)
      with (Raw.height n + (S (length h) + k - Raw.height n)) by lia.
    apply E.
  - intros x Hx. eapply built_range; [exact B | exact (E 0) | exact Hx].
Qed.

(** ** Methods and functions of one body *)

(** X7. [extractMethods] on a body node lists the same definitions as
    [extractFunctions] on that node, in the same order, and each entry is
    the entry of [extractFunctions] with [body] replaced by the text of the
    whole definition; without a body node it returns the empty list. *)
Theorem extractMethods_same_entries (fuel : nat) (h : Heap) (bodyNode : ref)
    (fs : list PythonFunction.t) :
  extractFunctions fuel h bodyNode = Some fs ->
  exists nodes,
    findNodesByType fuel h bodyNode "function_definition" = Some nodes /\
    length nodes = length fs /\
    extractMethods fuel h (Some bodyNode) =
      Some (zip_with (fun x f => with_body (text (deref h x)) f) nodes fs) /\
    extractMethods fuel h None = Some [].
Proof.
  unfold extractFunctions, extractMethods.
  destruct (findNodesByType fuel h bodyNode "function_definition")
    as [nodes|]; [|done]. cbn [mbind option_bind].
  intros H. exists nodes. split; [done|].
  enough (length nodes = length fs /\
          mapM (methodEntity fuel h) nodes =
            Some (zip_with (fun x f => with_body (text (deref h x)) f)
                           nodes fs)) as [Hl Hm].
  { split_and!; [exact Hl | exact Hm | reflexivity]. }
  revert fs H. induction nodes as [|x nodes IH]; intros fs H.
  - injection H as <-. by split.
  - cbn [mapM] in *. rewrite methodEntity_functionEntity.
    destruct (functionEntity fuel h x) as [f|]; [|done].
    cbn [mbind option_bind fmap option_fmap option_map] in *.
    destruct (mapM (functionEntity fuel h) nodes) as [fs'|]; [|done].
    cbn [mbind option_bind] in H. injection H as <-.
    destruct (IH fs' eq_refl) as (Hl & ->).
    cbn [mbind option_bind]. split; [simpl; lia | done].
Qed.

Lemma extractMethods_same_entries_witness :
  extractFunctions 20 Fixtures.class_heap 14 = Some [Fixtures.method_entity] /\
  extractMethods 20 Fixtures.class_heap (Some 14) =
    Some [with_body Fixtures.method_text Fixtures.method_entity].
Proof.
  assert (E : extractFunctions 20 Fixtures.class_heap 14
              = Some [Fixtures.method_entity]) by (vm_compute; reflexivity).
  split; [exact E|].
  destruct (extractMethods_same_entries 20 Fixtures.class_heap 14 _ E)
    as (nodes & En & _ & -> & _).
  assert (nodes = [13]) as ->
    by (vm_compute in En; by injection En as <-).
  vm_compute. reflexivity.
Defined.

(** ** Import lists *)

Lemma extractImportNames_omap h l :
  extractImportNames h (Some l) =
  omap (importNameShape h) (children (deref h l)).
Proof.
  unfold extractImportNames.
  match goal with |- foldl ?f [] _ = _ => set (step := f) end.
  assert (H : forall cs acc,
             foldl step acc cs = acc ++ omap (importNameShape h) cs).
  { induction cs as [|c cs IH]; intros acc; [by rewrite app_nil_r|].
    cbn [foldl omap list_omap]. rewrite IH. unfold step, importNameShape.
    destruct (String.eqb (type (deref h c)) "identifier").
    { by rewrite <- app_assoc. }
    destruct (String.eqb (type (deref h c)) "aliased_import"); [|done].
    rewrite orElse_empty. by rewrite <- app_assoc. }
  apply H.
Qed.

(** X8. [extractImportNames] reads every child of the import list as at most
    one entry, in order: an identifier gives its text as name and no alias,
    an aliased import gives the text of its first child as name (the empty
    string when there is none) and the text of its third child as alias; any
    other child, the separating commas among them, gives no entry.  An alias
    is never the empty string, and without an import list the result is
    empty. *)
Theorem extractImportNames_entries (h : Heap) (importListNode : option ref) :
  extractImportNames h importListNode =
    match importListNode with
    | None => []
    | Some l => omap (importNameShape h) (children (deref h l))
    end /\
  Forall (fun n => ImportName.alias n <> Some "")
         (extractImportNames h importListNode) /\
  length (extractImportNames h importListNode) <=
    match importListNode with
    | None => 0
    | Some l => length (children (deref h l))
    end.
Proof.
  split_and!; [| apply extractImportNames_alias |].
  - destruct importListNode as [l|]; [|done]. apply extractImportNames_omap.
  - destruct importListNode as [l|]; [|done].
    rewrite extractImportNames_omap.
    induction (children (deref h l)) as [|c cs IH]; [done|].
    cbn [omap list_omap length].
    destruct (importNameShape h c); cbn [length]; lia.
Qed.

(** ** Diagnostics of [parse] *)

(** X10. When the flags of the raw tree follow the grammar engine's discipline,
    the diagnostics of [parse] are exactly the nodes of kind ERROR of the
    whole tree, one each and in pre-order, all of severity [error]; the list
    is empty exactly when the tree has no node of kind ERROR.  The result
    echoes the source and is tagged as Python. *)
Theorem parse_diagnostics (grammar : string -> Raw.SyntaxNode)
    (sourceCode : string) (h : Heap) :
  flagsSound (grammar sourceCode) = true ->
  let result := (parse grammar sourceCode h).1 in
  errors result =
    syntaxErrorAt <$>
      List.filter isErrorKind (Raw.preorder (grammar sourceCode)) /\
  length (errors result) =
    length (List.filter isErrorKind (Raw.preorder (grammar sourceCode))) /\
  (errors result = [] <->
   forall m, m ∈ Raw.preorder (grammar sourceCode) ->
             isErrorKind m = false) /\
  Forall (fun e => severity e = error) (errors result) /\
  source result = sourceCode /\ language result = PYTHON.
Proof.
  intros Hs result.
  assert (E : errors result =
              syntaxErrorAt <$>
                List.filter isErrorKind (Raw.preorder (grammar sourceCode))).
  { unfold result. rewrite parse_errors.
    by rewrite flagsSound_all_entered. }
  split_and!.
  - exact E.
  - by rewrite E, length_fmap.
  - rewrite E, <- filter_empty. split.
    + by intros ?%fmap_nil_inv.
    + by intros ->.
  - apply parse_errors_severity.
  - unfold result, parse. by destruct (convertNode _ _ _).
  - unfold result, parse. by destruct (convertNode _ _ _).
Qed.

Lemma parse_diagnostics_witness :
  flagsSound Fixtures.broken = true /\
  errors (parse (fun _ => Fixtures.broken) "x = = 1" []).1 =
    [mkParseError "Syntax error at 0:4" (mkPosition 0 4) error].
Proof.
  split; [reflexivity|].
  destruct (parse_diagnostics (fun _ => Fixtures.broken) "x = = 1" []
              eq_refl) as (E & _).
  rewrite E. reflexivity.
Defined.

(** ** Imports against the raw tree *)

Lemma importNameShape_Repr h c m :
  Repr h c m -> importNameShape h c = rawImportNameShape m.
Proof.
  intros H. unfold importNameShape, rawImportNameShape.
  destruct (Repr_mirrors _ _ _ H) as (-> & _ & _ & ->).
  pose proof (Repr_children _ _ _ H) as Hk.
  rewrite (option_Repr_text h _ _ (proj1 (Forall2_lookup _ _ _) Hk 0)).
  rewrite (option_Repr_text h _ _ (proj1 (Forall2_lookup _ _ _) Hk 2)).
  done.
Qed.

Lemma extractImportNames_Repr h o om :
  option_Forall2 (Repr h) o om ->
  extractImportNames h o = rawImportNames om.
Proof.
  intros [l m H|]; [|done]. rewrite extractImportNames_omap. simpl.
  pose proof (Repr_children _ _ _ H) as Hk.
  induction Hk as [|c mc cs ms Hc _ IH]; [done|].
  cbn [omap list_omap]. rewrite (importNameShape_Repr _ _ _ Hc).
  by rewrite IH.
Qed.

Lemma importEntity_Repr h x m :
  Repr h x m -> importMirrors (importEntity h x) m.
Proof.
  intros H. unfold importEntity, importMirrors. cbv zeta.
  destruct (Repr_mirrors _ _ _ H) as (Hty & Hs & _). rewrite Hty.
  pose proof (extractImportNames_Repr _ _ _
                (Repr_findChild h x m "import_list" H)) as En.
  destruct (String.eqb (Raw.type m) "import_from_statement"); cbn.
  - rewrite En, Hs. split_and!; try done.
    rewrite orElse_empty.
    by rewrite (option_Repr_text h _ _
                  (Forall2_Repr_find h
                     (fun t => String.eqb t "dotted_name"
                               || String.eqb t "relative_import")
                     _ _ (Repr_children _ _ _ H))).
  - rewrite Hs. split_and!; try done.
    + rewrite orElse_empty. by rewrite head_lookup.
    + rewrite head_lookup. apply orAbsent_id.
      pose proof (extractImportNames_alias h (findChild h x "import_list"))
        as Hal.
      destruct (extractImportNames h (findChild h x "import_list"))
        as [|e es]; [done|].
      by inversion Hal.
Qed.

(** X9. On the tree built from a raw tree, [extractImports] returns one entity
    for each import statement of the raw tree: first those of the direct
    form, then those of the from form, each group in pre-order.  Names,
    module, alias and line of each entity are those read off the raw
    statement. *)
Theorem extractImports_built (n : Raw.SyntaxNode) (source : string)
    (h0 : Heap) :
  let '(r, h) := convertNode n source h0 in
  exists es,
    (forall k, extractImports (Raw.height n + k) h r = Some es) /\
    length es = length (rawNodesByType n "import_statement")
                + length (rawNodesByType n "import_from_statement") /\
    Forall2 importMirrors es
      (rawNodesByType n "import_statement"
         ++ rawNodesByType n "import_from_statement").
Proof.
  pose proof (convertNode_built source n h0) as B.
  destruct (convertNode n source h0) as [r h].
  destruct (built_preorder_Repr _ _ _ _ B) as (rs & E & M).
  eexists. split; [intros k; apply (extractImports_preorder _ _ _ _ (E k))|].
  assert (HF : Forall2 importMirrors
                 ((importEntity h <$> List.filter (isDirectImport h) rs)
                    ++ (importEntity h <$> List.filter (isFromImport h) rs))
                 (rawNodesByType n "import_statement"
                    ++ rawNodesByType n "import_from_statement")).
  { apply Forall2_app; apply Forall2_fmap_l;
      (eapply Forall2_impl; [|intros x m Hxm; apply importEntity_Repr, Hxm]).
    - apply (Forall2_Repr_filter h
               (fun t => String.eqb t "import_statement") _ _ M).
    - apply (Forall2_Repr_filter h
               (fun t => String.eqb t "import_from_statement") _ _ M). }
  split; [|exact HF].
  apply Forall2_length in HF. by rewrite HF, length_app.
Qed.

(** ** Decorators against the raw tree *)

Lemma rawWithDecorators_children m ds :
  rawWithDecorators m ds =
  (m, ds) :: concat ((fun c => rawWithDecorators c (rawInherited m ds))
                       <$> Raw.children m).
Proof.
  destruct m as [ty s e t he sl]; unfold Raw.children; simpl. f_equal.
  match goal with
  | |- context [rawInherited ?m ds] => generalize (rawInherited m ds)
  end.
  intros ds'. induction sl as [|[c|] sl IH]; simpl; auto. by rewrite IH.
Qed.

Lemma rawWithDecorators_fst :
  forall m ds, fst <$> rawWithDecorators m ds = Raw.preorder m.
Proof.
  induction m as [m IH] using syntax_node_ind. intros ds.
  rewrite rawWithDecorators_children, preorder_children, fmap_cons.
  cbn [fst]. f_equal. generalize (rawInherited m ds). intros ds'.
  induction IH as [|c cs Hc _ IHcs]; [done|].
  rewrite !fmap_cons. cbn [concat]. by rewrite fmap_app, Hc, IHcs.
Qed.

Lemma rawDecorated_fst m ty :
  fst <$> rawDecorated m ty = rawNodesByType m ty.
Proof.
  unfold rawDecorated, rawNodesByType.
  rewrite <- (rawWithDecorators_fst m []).
  induction (rawWithDecorators m []) as [|md l IH]; [done|].
  rewrite fmap_cons. cbn [List.filter].
  destruct (String.eqb (Raw.type (fst md)) ty);
    [rewrite fmap_cons|]; by rewrite IH.
Qed.

Lemma decoratorTexts_Repr h x m :
  Repr h x m -> decoratorTexts h x = rawDecoratorTexts m.
Proof.
  intros H. unfold decoratorTexts, rawDecoratorTexts.
  apply Forall2_Repr_texts.
  apply (Forall2_Repr_filter h (fun t => String.eqb t "decorator")).
  by apply Repr_children.
Qed.

(** The enumeration below a node pairs every object with its raw node and
    the decorators that reach it. *)
Lemma preorder_Decorated b h roots :
  Forest b h roots ->
  forall n x fuel ps,
    Repr h x n -> b <= x -> Raw.height n <= fuel -> wrapperChain h x ps ->
    exists rs,
      preorder fuel h x = Some rs /\
      Forall2 (Decorated h) rs
              (rawWithDecorators n (concat (decoratorTexts h <$> ps))).
Proof.
  intros F. induction n as [n IH] using syntax_node_ind.
  intros x fuel ps HR Hb Hf Hch.
  rewrite height_children in Hf. destruct fuel as [|f]; [lia|].
  pose proof (Repr_children _ _ _ HR) as Hkids.
  assert (Hh : Forall (fun c => Raw.height c <= f) (Raw.children n)).
  { apply Forall_forall. intros c Hc.
    pose proof (max_list_elem_of_le (Raw.height c)
                  (Raw.height <$> Raw.children n)
                  (list_elem_of_fmap_2 _ _ _ Hc)). lia. }
  set (ds := concat (decoratorTexts h <$> ps)).
  (* the chain of every child *)
  assert (Hkch : forall k, k ∈ children (deref h x) ->
             b <= k /\
             exists ps', wrapperChain h k ps' /\
                         concat (decoratorTexts h <$> ps')
                         = rawInherited n ds).
  { intros k Hk. destruct (F_down _ _ _ F x k Hb Hk) as [Hr Hp].
    split; [lia|]. unfold rawInherited.
    destruct (Repr_mirrors _ _ _ HR) as (<- & _).
    destruct (String.eqb (type (deref h x)) "decorated_definition") eqn:Hty.
    - exists (x :: ps). split; [by eapply chain_step|].
      rewrite fmap_cons. cbn [concat].
      by rewrite (decoratorTexts_Repr _ _ _ HR).
    - exists []. split; [by eapply chain_stop | done]. }
  assert (exists rss,
             mapM (preorder f h) (children (deref h x)) = Some rss /\
             Forall2 (Decorated h) (concat rss)
               (concat ((fun c => rawWithDecorators c (rawInherited n ds))
                          <$> Raw.children n))) as (rss & E & M).
  { clear Hf HR. revert IH Hh Hkch.
    induction Hkids as [|k c ks cs Hkc _ IHk]; intros IH Hh Hkch.
    - exists []. split; [done | constructor].
    - inversion IH as [|? ? IHc IHcs]; inversion Hh as [|? ? Hhc Hhcs]; subst.
      destruct (Hkch k (list_elem_of_here _ _)) as (Hbk & ps' & Hps' & Eps').
      destruct (IHc k f ps' Hkc Hbk Hhc Hps') as (rs1 & E1 & M1).
      rewrite Eps' in M1.
      destruct IHk as (rss & E2 & M2); [done | done | |].
      { intros k' Hk'. apply Hkch. by apply list_elem_of_further. }
      exists (rs1 :: rss). split; [by apply mapM_cons_Some|].
      rewrite fmap_cons. cbn [concat]. by apply Forall2_app. }
  exists (x :: concat rss). split.
  - cbn [preorder]. by rewrite E.
  - rewrite rawWithDecorators_children. constructor; [|done].
    split; [done|]. by exists ps.
Qed.

Lemma ascend_fuel_mono fuel h :
  forall current decorators ds fuel',
    ascend fuel h current decorators = Some ds -> fuel <= fuel' ->
    ascend fuel' h current decorators = Some ds.
Proof.
  induction fuel as [|f IH]; intros current decorators ds fuel' H Hle;
    [done|].
  destruct fuel' as [|f']; [lia|]. rewrite ascend_S in *.
  destruct current as [cur|]; [|done].
  destruct (String.eqb _ _); [|done]. apply (IH _ _ _ _ H). lia.
Qed.

(** In a forest, the decorators found from a node are those of its wrapper
    chain. *)
Lemma extractDecorators_chain b h roots x ps k :
  Forest b h roots -> b <= x < length h -> wrapperChain h x ps ->
  extractDecorators (S (length h) + k) h x =
  Some (concat (decoratorTexts h <$> ps)).
Proof.
  intros F Hx Hch.
  destruct (extractDecorators_returns _ _ _ F x Hx k) as [ds Hds].
  rewrite Hds. f_equal.
  pose proof (ascend_chain h x ps Hch 0 []) as Hc. rewrite app_nil_l in Hc.
  unfold extractDecorators in Hds.
  pose proof (ascend_fuel_mono _ _ _ _ _
                (Nat.max (S (length h) + k) (S (length ps + 0))) Hds
                (Nat.le_max_l _ _)) as E1.
  pose proof (ascend_fuel_mono _ _ _ _ _
                (Nat.max (S (length h) + k) (S (length ps + 0))) Hc
                (Nat.le_max_r _ _)) as E2.
  congruence.
Qed.

Lemma built_preorder_Decorated n h0 r h k :
  built n h0 (r, h) ->
  exists rs, preorder (S (length h) + k) h r = Some rs /\
             Forall2 (Decorated h) rs (rawWithDecorators n []) /\
             forall x, x ∈ rs -> length h0 <= x < length h.
Proof.
  intros B. destruct (built_preorder_at _ _ _ _ k B) as (rs & Hpre & _ & Hr).
  destruct B as (L & Rt & Old & F & Rp); cbn [fst snd] in *.
  pose proof (Hr r (preorder_head _ _ _ _ Hpre)) as Hrr.
  destruct (preorder_Decorated _ _ _ F n r (Raw.height n) [] Rp)
    as (rs' & Hpre' & M); [lia | done | |].
  { apply chain_root. apply (F_roots _ _ _ F). apply list_elem_of_here. }
  pose proof (preorder_det _ _ _ _ _ _ Hpre Hpre') as <-.
  by exists rs.
Qed.

Lemma Forall2_Decorated_filter h (p : string -> bool) rs mds :
  Forall2 (Decorated h) rs mds ->
  Forall2 (Decorated h)
          (List.filter (fun x => p (type (deref h x))) rs)
          (List.filter (fun md => p (Raw.type (fst md))) mds).
Proof.
  induction 1 as [|x md rs mds Hx _ IH]; [constructor|].
  cbn [List.filter]. destruct Hx as [HR Hps].
  destruct (Repr_mirrors _ _ _ HR) as (-> & _).
  destruct (p (Raw.type (fst md))); [constructor; [by split | done] | done].
Qed.

Lemma mapM_Forall2 {A B C} (R : A -> C -> Prop) (g : A -> option B)
    (Q : B -> C -> Prop) l k :
  Forall2 R l k ->
  (forall x z, x ∈ l -> R x z -> exists y, g x = Some y /\ Q y z) ->
  exists ys, mapM g l = Some ys /\ Forall2 Q ys k.
Proof.
  induction 1 as [|x z l k Hxz _ IH]; intros Hg.
  - exists []. by split.
  - destruct (Hg x z (list_elem_of_here _ _) Hxz) as (y & Ey & Qy).
    destruct IH as (ys & Eys & Qys).
    { intros x' z' Hx'. apply Hg. by apply list_elem_of_further. }
    exists (y :: ys). split; [by apply mapM_cons_Some | by constructor].
Qed.

(** X4. On the tree built from a raw tree, [extractDecorators] returns on every
    node, with the decorator texts of the node's run of wrapper ancestors as
    they stand in the raw tree, the innermost wrapper first; a node whose
    parent is no wrapper, the root among them, gets the empty list. *)
Theorem extractDecorators_built (n : Raw.SyntaxNode) (source : string)
    (h0 : Heap) :
  let '(r, h) := convertNode n source h0 in
  forall k, exists rs,
    preorder (S (length h) + k) h r = Some rs /\
    Forall2 (fun x md =>
               Repr h x (fst md) /\
               extractDecorators (S (length h) + k) h x = Some (snd md))
            rs (rawWithDecorators n []).
Proof.
  pose proof (convertNode_built source n h0) as B.
  destruct (convertNode n source h0) as [r h]. intros k.
  destruct (built_preorder_Decorated _ _ _ _ k B) as (rs & Hpre & M & Hr).
  destruct B as (L & Rt & Old & F & Rp); cbn [fst snd] in *.
  exists rs. split; [done|].
  apply Forall2_same_length_lookup. split; [by eapply Forall2_length|].
  intros i x md Hx Hmd.
  destruct (Forall2_lookup_lr _ _ _ _ _ _ M Hx Hmd) as (HR & ps & Hch & <-).
  split; [done|].
  apply (extractDecorators_chain _ _ _ _ _ _ F); [|done].
  apply Hr. by eapply list_elem_of_lookup_2.
Qed.

(** ** Function and class entities against the raw tree *)

Lemma Forall2_fmap_eq {A B C} (f : A -> C) (g : B -> C) l k :
  Forall2 (fun y z => f y = g z) l k -> f <$> l = g <$> k.
Proof.
  induction 1 as [|y z l k E _ IH]; [done|]. by rewrite !fmap_cons, E, IH.
Qed.

(** [extractMethods] on the block of a class, against the raw block. *)
Lemma extractMethods_Decorated b h roots k bn mb :
  Forest b h roots -> b <= bn < length h -> Repr h bn mb ->
  wrapperChain h bn [] ->
  exists ms,
    extractMethods (S (length h) + k) h (Some bn) = Some ms /\
    Forall2 (fun f md => methodMirrors f (fst md) /\
                         PythonFunction.decorators f = snd md)
            ms (rawDecorated mb "function_definition").
Proof.
  intros F Hbn Hb Hch.
  destruct (preorder_Decorated _ _ _ F mb bn (Raw.height mb) [] Hb)
    as (rsb & Eb & Mb); [lia | done | done |].
  destruct (preorder_returns _ _ _ F (S (length h) + k) bn) as [sub Hsub];
    [lia | lia |].
  pose proof (preorder_det _ _ _ _ _ _ Eb Hsub) as <-.
  unfold extractMethods.
  rewrite (findNodesByType_preorder _ _ _ _ _ Hsub). cbn [mbind option_bind].
  apply (mapM_Forall2 (Decorated h)).
  - apply (Forall2_Decorated_filter h
             (fun t => String.eqb t "function_definition") _ _ Mb).
  - intros x md Hx (HR & ps & Hps & Eps).
    apply list_elem_of_In, filter_In in Hx as [Hx _].
    apply list_elem_of_In in Hx.
    destruct (preorder_bounds _ _ _ _ F bn rsb x Hsub) as [? ?];
      [lia | done |].
    assert (Hds : extractDecorators (S (length h) + k) h x = Some (snd md)).
    { rewrite <- Eps. apply (extractDecorators_chain _ _ _ _ _ _ F);
        [lia | done]. }
    destruct (methodEntity_Repr _ _ _ _ _ HR Hds) as (f & Ef & Hf & Hd).
    by exists f.
Qed.

Lemma classEntity_Decorated b h roots k x md :
  Forest b h roots -> b <= x < length h -> Decorated h x md ->
  String.eqb (type (deref h x)) "class_definition" = true ->
  exists c,
    classEntity (S (length h) + k) h x = Some c /\
    classMirrors c (fst md) /\
    PythonClass.decorators c = snd md /\
    PythonFunction.decorators <$> PythonClass.methods c
      = rawMethodDecorators (fst md).
Proof.
  intros F Hx (H & ps & Hps & Eps) Hty. unfold classEntity.
  apply String.eqb_eq in Hty.
  assert (exists ms,
             extractMethods (S (length h) + k) h (findChild h x "block")
               = Some ms /\
             Forall2 methodMirrors ms (rawMethods (fst md)) /\
             PythonFunction.decorators <$> ms
               = rawMethodDecorators (fst md)) as (ms & Ems & Hms & Hmd).
  { pose proof (Repr_findChild h x (fst md) "block" H) as Hv.
    unfold rawMethods, rawMethodDecorators.
    destruct (findChild h x "block") as [bn|] eqn:Efc;
      inversion Hv as [? mb Hb E1 E2|E1 E2]; subst.
    - unfold findChild in Efc. apply find_some in Efc as [Hin _].
      apply list_elem_of_In in Hin.
      destruct (F_down _ _ _ F x bn) as [? Hp]; [lia | done |].
      destruct (extractMethods_Decorated b h roots k bn mb F)
        as (ms & Ems & HF); [lia | done | |].
      { eapply chain_stop; [exact Hp|]. by rewrite Hty. }
      exists ms. split_and!; [done | |].
      + rewrite <- rawDecorated_fst. apply Forall2_fmap_r.
        eapply Forall2_impl; [exact HF|]. by intros f md' [? _].
      + apply Forall2_fmap_eq.
        eapply Forall2_impl; [exact HF|]. by intros f md' [_ ?].
    - exists []. split_and!; [done | constructor | done]. }
  rewrite Ems. cbn [mbind option_bind].
  rewrite (extractDecorators_chain _ _ _ _ _ k F Hx Hps), Eps.
  cbn [mbind option_bind]. eexists. split; [done|].
  destruct (Repr_mirrors _ _ _ H) as (_ & Hs & He & _).
  unfold classMirrors; cbn.
  rewrite (option_Repr_text _ _ _ (Repr_findChild h x _ _ H)).
  rewrite (extractSuperclasses_Repr _ _ _ H), Hs, He.
  by split_and!.
Qed.

(** X5. On the tree built from a raw tree, [extractFunctions] returns one entity
    for each function definition of the raw tree, nested ones and methods
    included, in pre-order.  Name, parameters, body, lines and the async
    flag of each entity are those read off the raw node, with the documented
    defaults where a child is missing, and its decorators are those of the
    wrappers around the raw node, innermost first. *)
Theorem extractFunctions_built (n : Raw.SyntaxNode) (source : string)
    (h0 : Heap) :
  let '(r, h) := convertNode n source h0 in
  forall k, exists fs,
    extractFunctions (S (length h) + k) h r = Some fs /\
    length fs = length (rawNodesByType n "function_definition") /\
    Forall2 (fun f md => functionMirrors f (fst md) /\
                         PythonFunction.decorators f = snd md)
            fs (rawDecorated n "function_definition").
Proof.
  pose proof (convertNode_built source n h0) as B.
  destruct (convertNode n source h0) as [r h]. intros k.
  destruct (built_preorder_Decorated _ _ _ _ k B) as (rs & Hpre & M & Hr).
  destruct B as (L & Rt & Old & F & Rp); cbn [fst snd] in *.
  unfold extractFunctions.
  rewrite (findNodesByType_preorder _ _ _ _ _ Hpre). cbn [mbind option_bind].
  destruct (mapM_Forall2 (Decorated h)
              (functionEntity (S (length h) + k) h)
              (fun f md => functionMirrors f (fst md) /\
                           PythonFunction.decorators f = snd md) _ _
              (Forall2_Decorated_filter h
                 (fun t => String.eqb t "function_definition") _ _ M))
    as (fs & Efs & Hfs).
  { intros x md Hx (HR & ps & Hps & Eps).
    apply list_elem_of_In, filter_In in Hx as [Hx _].
    apply list_elem_of_In, Hr in Hx.
    assert (Hds : extractDecorators (S (length h) + k) h x = Some (snd md)).
    { rewrite <- Eps. by apply (extractDecorators_chain _ _ _ _ _ _ F). }
    destruct (functionEntity_Repr _ _ _ _ _ HR Hds) as (f & Ef & Hf & Hd).
    by exists f. }
  exists fs. split_and!; [done | | done].
  apply Forall2_length in Hfs.
  by rewrite Hfs, <- rawDecorated_fst, length_fmap.
Qed.

(** X6. On the tree built from a raw tree, [extractClasses] returns one entity
    for each class definition of the raw tree, in pre-order.  Name,
    superclasses and lines are those read off the raw node and the
    decorators are those of the wrappers around it; [methods] has one entry
    for each function definition at or below the class's block, each with
    the text of the whole definition as [body] and with the decorators of
    the wrappers around it inside the block. *)
Theorem extractClasses_built (n : Raw.SyntaxNode) (source : string)
    (h0 : Heap) :
  let '(r, h) := convertNode n source h0 in
  forall k, exists cs,
    extractClasses (S (length h) + k) h r = Some cs /\
    length cs = length (rawNodesByType n "class_definition") /\
    Forall2 (fun c md =>
               classMirrors c (fst md) /\
               PythonClass.decorators c = snd md /\
               PythonFunction.decorators <$> PythonClass.methods c
                 = rawMethodDecorators (fst md))
            cs (rawDecorated n "class_definition").
Proof.
  pose proof (convertNode_built source n h0) as B.
  destruct (convertNode n source h0) as [r h]. intros k.
  destruct (built_preorder_Decorated _ _ _ _ k B) as (rs & Hpre & M & Hr).
  destruct B as (L & Rt & Old & F & Rp); cbn [fst snd] in *.
  unfold extractClasses.
  rewrite (findNodesByType_preorder _ _ _ _ _ Hpre). cbn [mbind option_bind].
  destruct (mapM_Forall2 (Decorated h)
              (classEntity (S (length h) + k) h)
              (fun c md =>
                 classMirrors c (fst md) /\
                 PythonClass.decorators c = snd md /\
                 PythonFunction.decorators <$> PythonClass.methods c
                   = rawMethodDecorators (fst md)) _ _
              (Forall2_Decorated_filter h
                 (fun t => String.eqb t "class_definition") _ _ M))
    as (cs & Ecs & Hcs).
  { intros x md Hx HD.
    apply list_elem_of_In, filter_In in Hx as [Hx Hty].
    apply list_elem_of_In, Hr in Hx.
    by apply (classEntity_Decorated _ _ _ k x md F). }
  exists cs. split_and!; [done | | done].
  apply Forall2_length in Hcs.
  by rewrite Hcs, <- rawDecorated_fst, length_fmap.
Qed.
